(** * lightonml example notebooks: the randomized-SVD recommender pipeline

    A shallow embedding of the numerical code of
    [examples/randomized_svd.ipynb]:

    - the demeaning cell ([np.nanmean], NaN replaced by zero),
    - [interp_dec], [randomize], [svd],
    - [top_cosine_similarity].

    Arrays hold IEEE 754 binary floating-point numbers.  The scalar
    operations are those of [SpecFloat] (round to nearest even, one NaN,
    signed zeros and infinities), parameterised by the format the way a
    numpy array is parameterised by its dtype.

    Conventions of the model:
    - numpy leaves open in which order and grouping [np.dot], [np.einsum]
      and [np.add.reduce] add, whether a product is fused with an addition,
      and how [np.argsort] orders equal keys.  The first model of each
      cell fixes them: sums add from left to right without fused
      multiply-add, and [np.argsort] keeps equal keys in index order; its
      concrete examples only use sums that are exact, so that the order
      does not matter for them, and keys without ties where the order of
      the result is read off.  The models over numpy's own routines
      ([similarity_with], [top_cosine_similarity_with],
      [demean_ratings_with]) leave them open: the routines are parameters
      with the contracts numpy documents, and a sum is any order and
      grouping of additions;
    - [top_cosine_similarity] is also given on the interpreter's heap,
      where arrays are shared objects and slices are views;
    - Python exceptions ([IndexError], [ValueError]) are [None];
    - third-party routines ([scipy.linalg.interpolative.interp_decomp],
      [np.linalg.qr], [np.linalg.svd], [OPUMap.transform]) are section
      variables described by their documented shape contracts; a variable
      stands for one run of a routine that draws random numbers. *)

From Stdlib Require Import ZArith Floats.SpecFloat.
From stdpp Require Import base option list numbers sorting.

Local Open Scope Z_scope.

(** ** Scalars: numpy dtypes *)

Class dtype := { prec : Z; emax : Z }.

Definition float32 : dtype := {| prec := 24; emax := 128 |}.
Definition float64 : dtype := {| prec := 53; emax := 1024 |}.

Abbreviation float := spec_float.

Definition is_nan (x : float) : bool :=
  match x with S754_nan => true | _ => false end.

Definition is_finite (x : float) : bool :=
  match x with S754_zero _ | S754_finite _ _ _ => true | _ => false end.

Definition is_zero (x : float) : bool :=
  match x with S754_zero _ => true | _ => false end.

Section Scalars.
Context {dt : dtype}.

Definition fzero : float := S754_zero false.
Definition fone : float := SFone prec emax.
Definition fadd : float → float → float := SFadd prec emax.
Definition fsub : float → float → float := SFsub prec emax.
Definition fmul : float → float → float := SFmul prec emax.
Definition fdiv : float → float → float := SFdiv prec emax.
Definition fsqrt : float → float := SFsqrt prec emax.
Definition fneg : float → float := SFopp.

(** The value [m * 2^e], rounded to the format. *)
Definition fmake (m e : Z) : float := binary_normalize prec emax m e false.
Definition of_Z (n : Z) : float := fmake n 0.
Definition of_nat (n : nat) : float := of_Z (Z.of_nat n).
End Scalars.

(** Python comparison operators on floats: any comparison with NaN is
    [False]. *)
Definition fgt (x y : float) : bool := SFltb y x.
Definition fle (x y : float) : bool := SFleb x y.

(** ** Two-dimensional arrays

    A numpy array knows its shape even when it has no rows or no columns,
    so the shape is stored next to the cells. *)

Record ndarray (A : Type) := mk_ndarray {
  nrows : nat;
  ncols : nat;
  cells : list (list A)
}.
Arguments mk_ndarray {A} _ _ _.
Arguments nrows {A} _.
Arguments ncols {A} _.
Arguments cells {A} _.

Definition shape {A} (a : ndarray A) : nat * nat := (nrows a, ncols a).

Definition wf_array {A} (a : ndarray A) : Prop :=
  length (cells a) = nrows a ∧ Forall (λ r, length r = ncols a) (cells a).

(** [np.array(rows)] for a non-ragged list of rows. *)
Definition array_of {A} (rows : list (list A)) : ndarray A :=
  mk_ndarray (length rows) (from_option length 0%nat (head rows)) rows.

(** Python indexing [a[i]] on an axis of length [n]: negative indices count
    from the end, anything else out of range raises [IndexError] ([None]). *)
Definition py_index (n : nat) (i : Z) : option nat :=
  if bool_decide (0 ≤ i < Z.of_nat n) then Some (Z.to_nat i)
  else if bool_decide (- Z.of_nat n ≤ i < 0) then Some (Z.to_nat (i + Z.of_nat n))
  else None.

(** Python slice [l[:stop]]. *)
Definition py_slice_to {A} (l : list A) (stop : Z) : list A :=
  if bool_decide (stop < 0) then take (Z.to_nat (Z.of_nat (length l) + stop)) l
  else take (Z.to_nat stop) l.

(** [a.T] *)
Fixpoint columns_of {A} (n : nat) (rows : list (list A)) : list (list A) :=
  match rows with
  | [] => replicate n []
  | r :: rs => zip_with cons r (columns_of n rs)
  end.

Definition transpose {A} (a : ndarray A) : ndarray A :=
  mk_ndarray (ncols a) (nrows a) (columns_of (ncols a) (cells a)).

(** ** The demeaning cell

    [ratings -= np.nanmean(ratings, axis=0, keepdims=True)]
    [ratings[np.isnan(ratings)] = 0] *)

Definition is_inf (x : float) : bool :=
  match x with S754_infinity _ => true | _ => false end.

Definition nan_to_zero (x : float) : float := if is_nan x then fzero else x.

Section Demean.
Context {dt : dtype}.

(** [np.add.reduce] in the order of the first model: from the first
    element on, one after the other, as numpy adds the rows of a matrix
    along its first axis.  [sums_to] below covers the other orders. *)
Definition add_reduce (l : list float) : float :=
  match l with
  | [] => fzero
  | x :: t => foldl fadd x t
  end.

(** [np.nanmean] of one column: NaN entries are replaced by zero and left
    out of the count; the total is divided by the count (0/0 for a column
    with nothing but NaN).  The count is exact below [2^prec] rows. *)
Definition nanmean (col : list float) : float :=
  let arr := nan_to_zero <$> col in
  let cnt := length (filter (λ x, is_nan x = false) col) in
  let tot := add_reduce arr in
  fdiv tot (of_nat cnt).

Definition column_means (ratings : ndarray float) : list float :=
  nanmean <$> cells (transpose ratings).

Definition demean_ratings (ratings : ndarray float) : ndarray float :=
  let mean := column_means ratings in
  let demeaned := (λ row, zip_with fsub row mean) <$> cells ratings in
  mk_ndarray (nrows ratings) (ncols ratings)
    ((λ row : list float, nan_to_zero <$> row) <$> demeaned).
End Demean.

(** ** The demeaning cell over numpy's own summation

    [np.add.reduce] adds the elements of a column in an order and grouping
    of its own (row after row along the first axis of a matrix, in pairs of
    blocks along contiguous memory, several partial sums at a time when
    vectorised), possibly starting from the identity [0.0];
    [sums_to l s] says that [s] is the result of adding up the elements of
    [l] in some order and grouping.  [add_reduce] above is one of them. *)

Section DemeanRoutines.
Context {dt : dtype}.

Inductive sums_to : list float → float → Prop :=
  | sums_to_nil : sums_to [] fzero
  | sums_to_one (x : float) : sums_to [x] x
  | sums_to_app (l l1 l2 : list float) (a b : float) :
      l ≡ₚ l1 ++ l2 → sums_to l1 a → sums_to l2 b → sums_to l (fadd a b).

Variable np_add_reduce : list float → float.

Definition nanmean_with (col : list float) : float :=
  let arr := nan_to_zero <$> col in
  let cnt := length (filter (λ x, is_nan x = false) col) in
  let tot := np_add_reduce arr in
  fdiv tot (of_nat cnt).

Definition column_means_with (ratings : ndarray float) : list float :=
  nanmean_with <$> cells (transpose ratings).

Definition demean_ratings_with (ratings : ndarray float) : ndarray float :=
  let mean := column_means_with ratings in
  let demeaned := (λ row, zip_with fsub row mean) <$> cells ratings in
  mk_ndarray (nrows ratings) (ncols ratings)
    ((λ row : list float, nan_to_zero <$> row) <$> demeaned).
End DemeanRoutines.

(** [within K E x]: [x] is a number with [|x| <= K * 2^E]. *)
Definition within (K E : Z) (x : float) : bool :=
  match x with
  | S754_zero _ => true
  | S754_finite _ m e => Z.pos m * 2 ^ (e - Z.min e E) <=? K * 2 ^ (E - Z.min e E)
  | _ => false
  end.

(** A record of [SpecFloat]'s right shift carries a nonzero digit that was
    shifted out. *)
Definition inexact (r : shr_record) : bool := shr_r r || shr_s r.

(** ** Sorting: [np.argsort]

    numpy's default sort kind is not stable: it orders equal keys in a way
    of its own.  The first model sorts by insertion, which keeps equal keys
    in index order, for any strict comparison [lt] on the keys;
    [argsort_contract] below states what every sort kind guarantees. *)

Section Argsort.
Context {K : Type} (lt : K → K → bool).

Fixpoint insert_key (x : K * nat) (l : list (K * nat)) : list (K * nat) :=
  match l with
  | [] => [x]
  | y :: t => if lt y.1 x.1 then y :: insert_key x t else x :: y :: t
  end.

Definition sort_keys (l : list (K * nat)) : list (K * nat) :=
  foldr insert_key [] l.

Definition argsort_by (v : list K) : list nat :=
  (sort_keys (zip v (seq 0 (length v)))).*2.

(** [x] may stand before [y] in the sorted order. *)
Definition key_le (x y : K * nat) : Prop := lt y.1 x.1 = false.
End Argsort.

(** numpy orders floats with [a < b || (b != b && a == a)], which sends NaN
    to the end. *)
Definition np_lt (a b : float) : bool :=
  SFltb a b || (is_nan b && negb (is_nan a)).

(** [np.argsort] of a float vector and of an integer vector. *)
Definition argsort (v : list float) : list nat := argsort_by np_lt v.
Definition argsort_int (v : list nat) : list nat := argsort_by Nat.ltb v.

(** ** The similarity ranker *)

Section Ranker.
Context {dt : dtype}.

(** [np.einsum('ij, ij -> i', data, data)] on one row, in the order of the
    first model: products rounded one by one and added from left to
    right. *)
Definition sum_squares (r : list float) : float :=
  foldl fadd fzero ((λ x, fmul x x) <$> r).

(** [np.dot(u, v)] for two vectors, in the same order. *)
Definition dot (u v : list float) : float :=
  foldl fadd fzero (zip_with fmul u v).

(** [magnitude = np.sqrt(np.einsum('ij, ij -> i', data, data))] *)
Definition magnitudes (data : ndarray float) : list float :=
  (λ r, fsqrt (sum_squares r)) <$> cells data.

(** The first four lines of [top_cosine_similarity]: the vector
    [np.dot(movie_row, data.T) / (magnitude[index] * magnitude)]. *)
Definition similarity (data : ndarray float) (movie_id : Z) : option (list float) :=
  let index := movie_id - 1 in
  i ← py_index (nrows data) index;
  movie_row ← cells data !! i;
  let magnitude := magnitudes data in
  mi ← magnitude !! i;
  Some (zip_with fdiv (dot movie_row <$> cells data) (fmul mi <$> magnitude)).

(** [sort_indices = np.argsort(-similarity) + 1] *)
Definition sort_indices (similarity : list float) : list Z :=
  (λ j : nat, Z.of_nat j + 1) <$> argsort (fneg <$> similarity).

Definition top_cosine_similarity (data : ndarray float) (movie_id : Z)
    (top_n : Z) : option (list Z) :=
  similarity ← similarity data movie_id;
  Some (py_slice_to (sort_indices similarity) top_n).
End Ranker.

(** Small arrays of integers, as [np.array(rows, dtype='float64')]. *)
Definition ints64 (rows : list (list Z)) : ndarray float :=
  array_of ((λ row : list Z, of_Z (dt := float64) <$> row) <$> rows).

(** ** Array helpers used by the randomized SVD *)

(** [x.astype(to)]: rounds every number to the format [to]. *)
Definition astype (to : dtype) (x : float) : float :=
  match x with
  | S754_finite s m e => binary_round prec emax s m e
  | _ => x
  end.

Definition astype_array (to : dtype) (a : ndarray float) : ndarray float :=
  mk_ndarray (nrows a) (ncols a) ((λ row : list float, astype to <$> row) <$> cells a).

(** [np.eye(k)], a float64 array. *)
Definition np_eye (k : nat) : ndarray float :=
  mk_ndarray k k
    ((λ i, (λ j, if decide (i = j) then fone (dt := float64) else fzero) <$> seq 0 k)
       <$> seq 0 k).

(** [np.hstack([a, b])]: [ValueError] unless the row counts agree. *)
Definition np_hstack {A} (a b : ndarray A) : option (ndarray A) :=
  if decide (nrows a = nrows b)
  then Some (mk_ndarray (nrows a) (ncols a + ncols b) (zip_with app (cells a) (cells b)))
  else None.

(** [row[p]] for an array of positions [p]: [IndexError] when a position is
    out of range. *)
Definition gather {A} (row : list A) (p : list nat) : option (list A) :=
  mapM (λ j, row !! j) p.

(** [a[:, p]] *)
Definition take_columns {A} (p : list nat) (a : ndarray A) : option (ndarray A) :=
  if decide (Forall (λ j, j < ncols a)%nat p)
  then rows ← mapM (λ row, gather row p) (cells a);
       Some (mk_ndarray (nrows a) (length p) rows)
  else None.

(** [a[J, :]] *)
Definition take_rows {A} (J : list nat) (a : ndarray A) : option (ndarray A) :=
  rows ← gather (cells a) J;
  Some (mk_ndarray (length J) (ncols a) rows).

(** [a[:k, :]] and [a[:, :k]] *)
Definition first_rows {A} (k : nat) (a : ndarray A) : ndarray A :=
  mk_ndarray (k `min` nrows a) (ncols a) (take k (cells a)).
Definition first_columns {A} (k : nat) (a : ndarray A) : ndarray A :=
  mk_ndarray (nrows a) (k `min` ncols a) (take k <$> cells a).

Section LinearAlgebra.
Context {dt : dtype}.

(** [np.dot(a, b)] for two matrices: [ValueError] unless the inner
    dimensions agree.  The products of this section are carried out in one
    format [dt]; numpy promotes mixed operands to the wider of their
    formats, which changes the rounding but no shape. *)
Definition np_dot (a b : ndarray float) : option (ndarray float) :=
  if decide (ncols a = nrows b)
  then Some (mk_ndarray (nrows a) (ncols b)
               ((λ row, dot row <$> cells (transpose b)) <$> cells a))
  else None.

(** [u * s] for a matrix [u] and a vector [s], broadcast along the rows. *)
Definition mul_broadcast (u : ndarray float) (s : list float) : option (ndarray float) :=
  if decide (ncols u = length s)
  then Some (mk_ndarray (nrows u) (ncols u) ((λ row, zip_with fmul row s) <$> cells u))
  else None.

(** Third-party factorizations: [sli.interp_decomp], [np.linalg.qr],
    [np.linalg.svd]. *)
Variable interp_decomp : ndarray float → nat → list nat * ndarray float.
Variable linalg_qr : ndarray float → ndarray float * ndarray float.
Variable linalg_svd : ndarray float → ndarray float * list float * ndarray float.

Definition interp_dec (A : ndarray float) (k : nat)
    : option (list nat * ndarray float) :=
  let '(idx, proj) := interp_decomp (astype_array float64 A) k in
  H ← np_hstack (np_eye k) proj;
  X ← take_columns (argsort_int idx) H;
  Some (take k idx, X).

Definition svd (x_proj x : ndarray float) (k : nat)
    : option (ndarray float * list float * ndarray float) :=
  xtp ← np_dot (transpose x) x_proj;
  x_proj ← np_dot x xtp;
  '(J, X) ← interp_dec (transpose x_proj) k;
  xJ ← take_rows J x;
  let '(Q1, R1) := linalg_qr xJ in
  XtQ ← np_dot (transpose X) Q1;
  let '(U, s, Vt) := linalg_svd XtQ in
  V ← np_dot (first_rows k Vt) R1;
  Some (first_columns k U, s, V).

(** [reconstruction = np.dot(u * s, v)] *)
Definition reconstruction (u : ndarray float) (s : list float) (v : ndarray float)
    : option (ndarray float) :=
  us ← mul_broadcast u s;
  np_dot us v.
End LinearAlgebra.

(** What the documentation of the third-party routines promises. *)

(** [scipy.linalg.interpolative.interp_decomp(A, k)] for a rank [k] that
    [A] can have, [k <= min(rows, cols)]: a permutation of the column
    indices and a [k × (n - k)] coefficient matrix.  Nothing is promised
    for a larger [k]. *)
Definition interp_decomp_contract
    (interp_decomp : ndarray float → nat → list nat * ndarray float) : Prop :=
  ∀ A k, wf_array A → (k ≤ nrows A)%nat → (k ≤ ncols A)%nat →
    (interp_decomp A k).1 ≡ₚ seq 0 (ncols A) ∧
    wf_array (interp_decomp A k).2 ∧
    shape (interp_decomp A k).2 = (k, (ncols A - k)%nat).

(** [np.linalg.qr(a)] in the default reduced mode. *)
Definition qr_contract
    (linalg_qr : ndarray float → ndarray float * ndarray float) : Prop :=
  ∀ A, wf_array A →
    wf_array (linalg_qr A).1 ∧
    shape (linalg_qr A).1 = (nrows A, (nrows A `min` ncols A)%nat) ∧
    wf_array (linalg_qr A).2 ∧
    shape (linalg_qr A).2 = ((nrows A `min` ncols A)%nat, ncols A).

Definition descending (s : list float) : Prop :=
  ∀ (p q : nat) a b, (p < q)%nat → s !! p = Some a → s !! q = Some b → fle b a = true.

(** [np.linalg.svd(a)] with the default [full_matrices=True]: square
    factors, and the singular values non-negative in descending order. *)
Definition svd_contract
    (linalg_svd : ndarray float → ndarray float * list float * ndarray float) : Prop :=
  ∀ A, wf_array A →
    wf_array (linalg_svd A).1.1 ∧
    shape (linalg_svd A).1.1 = (nrows A, nrows A) ∧
    length (linalg_svd A).1.2 = (nrows A `min` ncols A)%nat ∧
    Forall (λ x, fle fzero x = true) (linalg_svd A).1.2 ∧
    descending (linalg_svd A).1.2 ∧
    wf_array (linalg_svd A).2 ∧
    shape (linalg_svd A).2 = (ncols A, ncols A).

(** ** The projector *)

(** [x > thresh] and [.astype('uint8')] *)
Definition greater_than (x : ndarray float) (thresh : float) : ndarray bool :=
  mk_ndarray (nrows x) (ncols x) ((λ row : list float, (λ v, fgt v thresh) <$> row) <$> cells x).

Definition astype_uint8 (x : ndarray bool) : ndarray Z :=
  mk_ndarray (nrows x) (ncols x) ((λ row : list bool, Z.b2z <$> row) <$> cells x).

Section Projector.
Context {Y : Type}.

(** [OPUMap(n_components=k).transform(x)], the optical device. *)
Variable opu_transform : nat → ndarray Z → ndarray Y.

(** [randomize(x, k, thresh=0)] *)

Definition randomize (x : ndarray float) (k : nat) (thresh : float) : ndarray Y :=
  let mapping := opu_transform k in
  let x := astype_uint8 (greater_than x thresh) in
  let y := mapping x in
  y.
End Projector.

Definition is_binary (x : ndarray Z) : Prop :=
  Forall (Forall (λ v, v = 0 ∨ v = 1)) (cells x).

(** The device maps a binary array of shape [(n_samples, n_features)] to
    [n_samples] output vectors of dimension [k]. *)
Definition opu_contract {Y} (opu_transform : nat → ndarray Z → ndarray Y) : Prop :=
  ∀ k x, (0 < k)%nat → wf_array x → is_binary x →
    wf_array (opu_transform k x) ∧ shape (opu_transform k x) = (nrows x, k).

(** The similarity attached to the row identifier [id] (identifiers start
    at 1, as movie ids do). *)
Definition row_similarity (sim : list float) (id : Z) : float :=
  default S754_nan (sim !! Z.to_nat (id - 1)).

Definition zero_or_nan (x : float) : bool := is_zero x || is_nan x.

(** [l] lists [N] distinct row identifiers of an [n]-row matrix, in
    descending order of similarity, and no identifier left out has a
    similarity above one that is listed. *)
Definition is_top_n (sim : list float) (n : nat) (N : Z) (l : list Z) : Prop :=
  length l = Z.to_nat N ∧ NoDup l ∧
  (∀ id, id ∈ l → 1 ≤ id ≤ Z.of_nat n) ∧
  (∀ (p q : nat) a b, (p < q)%nat → l !! p = Some a → l !! q = Some b →
     fle (row_similarity sim b) (row_similarity sim a) = true) ∧
  (∀ a b, a ∈ l → 1 ≤ b ≤ Z.of_nat n → b ∉ l →
     fle (row_similarity sim b) (row_similarity sim a) = true).

(** The ranking the specification words ask for on degenerate input: an
    undefined similarity counts as 0. *)
Definition zero_fallback (sim : list float) : list float :=
  (λ s, if is_nan s then fzero else s) <$> sim.

Definition spec_top_cosine_similarity `{dt : dtype} (data : ndarray float)
    (movie_id : Z) (top_n : Z) : option (list Z) :=
  sim ← similarity data movie_id;
  Some (py_slice_to (sort_indices (zero_fallback sim)) top_n).

(** The float64 below 1.0 by [2^-52]. *)
Definition below_one64 : float :=
  fsub (dt := float64) (fone (dt := float64)) (fmake (dt := float64) 1 (-52)).

(** Sample factor matrices. *)
Definition zero_row_example : ndarray float :=
  ints64 [[1; 0]; [0; 0]; [-1; 0]].
Definition pythagorean_example : ndarray float :=
  ints64 [[3; 4]; [4; 3]; [-3; -4]].
Definition overflow_example : ndarray float :=
  array_of [[fmake (dt := float64) 1 600; fzero]; [fzero; fone (dt := float64)]].
Definition rounding_example : ndarray float :=
  ints64 [[67105865; 67105866]; [1; 1]].

(** A float32 rating matrix with one column holding [2^127] twice. *)
Definition huge_ratings : ndarray float :=
  array_of [[fmake (dt := float32) 1 127]; [fmake (dt := float32) 1 127]].

(** A float32 rating matrix with a missing entry and a column of missing
    entries. *)
Definition small_ratings : ndarray float :=
  array_of [[of_Z (dt := float32) 4; S754_nan];
            [S754_nan; S754_nan];
            [of_Z (dt := float32) 2; S754_nan]].

(** Stand-ins for the third-party routines, with the documented shapes:
    the interpolative decomposition picks the columns from last to first
    with coefficients 1/2; the factorizations return constant factors of
    the documented shapes; the device counts the ones of each sample. *)
Definition constant_array (m n : nat) (c : float) : ndarray float :=
  mk_ndarray m n (replicate m (replicate n c)).

Definition reversing_interp_decomp (A : ndarray float) (k : nat)
    : list nat * ndarray float :=
  (reverse (seq 0 (ncols A)),
   constant_array k (ncols A - k) (fmake (dt := float64) 1 (-1))).

(** A routine that returns no more coefficient rows than [A] has rows, the
    way scipy's does when it is asked for a rank above the number of rows;
    its index permutation is the identity. *)
Definition capped_interp_decomp (A : ndarray float) (k : nat)
    : list nat * ndarray float :=
  (seq 0 (ncols A),
   constant_array (k `min` nrows A) (ncols A - k) (fmake (dt := float64) 1 (-1))).

Definition constant_qr (A : ndarray float) : ndarray float * ndarray float :=
  (constant_array (nrows A) (nrows A `min` ncols A) (fone (dt := float64)),
   constant_array (nrows A `min` ncols A) (ncols A) (fone (dt := float64))).

Definition constant_svd (A : ndarray float)
    : ndarray float * list float * ndarray float :=
  (constant_array (nrows A) (nrows A) (fone (dt := float64)),
   replicate (nrows A `min` ncols A) (fone (dt := float64)),
   constant_array (ncols A) (ncols A) (fone (dt := float64))).

Definition counting_opu (k : nat) (x : ndarray Z) : ndarray Z :=
  mk_ndarray (nrows x) k ((λ row, replicate k (foldr Z.add 0 row)) <$> cells x).

(** ** Notions used to state further properties *)

(** Changing the sign of the columns of a factor matrix marked in [signs]
    (singular vectors are determined up to sign only). *)
Definition flip_columns (signs : list bool) (data : ndarray float) : ndarray float :=
  mk_ndarray (nrows data) (ncols data)
    ((λ row, zip_with (λ (b : bool) x, if b then fneg x else x) signs row)
       <$> cells data).

(** ** The cells that run the helpers

    Cells 4, 7 and 8 of the notebook: the ratings are demeaned, projected
    with [randomize(ratings, k)], factored with
    [u, s, v = svd(ratings_proj, ratings, c)] and put back together with
    [reconstruction = np.dot(u * s, v)]. *)
Section Pipeline.
Context {dt : dtype}.
Variable opu_transform : nat → ndarray Z → ndarray float.
Variable interp_decomp : ndarray float → nat → list nat * ndarray float.
Variable linalg_qr : ndarray float → ndarray float * ndarray float.
Variable linalg_svd : ndarray float → ndarray float * list float * ndarray float.

Definition factor_ratings (ratings : ndarray float) (k c : nat)
    : option (ndarray float * list float * ndarray float * ndarray float) :=
  let ratings := demean_ratings ratings in
  let ratings_proj := randomize opu_transform ratings k fzero in
  '(u, s, v) ← svd interp_decomp linalg_qr linalg_svd ratings_proj ratings c;
  reconstruction ← reconstruction u s v;
  Some (u, s, v, reconstruction).
End Pipeline.

(** A stand-in for the device that returns numbers: the count of ones of
    each sample, repeated [k] times. *)
Definition counting_opu_float (k : nat) (x : ndarray Z) : ndarray float :=
  mk_ndarray (nrows x) k
    ((λ row, replicate k (of_Z (dt := float64) (foldr Z.add 0 row))) <$> cells x).

(** The array [randomize] hands to the device:
    [(x > thresh).astype('uint8')]. *)
Definition device_input (x : ndarray float) (thresh : float) : ndarray Z :=
  astype_uint8 (greater_than x thresh).

(** ** The energy cell (cell 11)

    [energy = 0]
    [for i, el in enumerate(s):]
    [    energy += el]
    [    if energy > (s**2).sum()*0.9: break]
    [k = i]

    [s] is the float64 vector returned by [svd]. *)

(** The Python float [0.9]. *)
Definition point_nine : float := fmake (dt := float64) 8106479329266893 (-53).

Section Energy.
(** [np.sum] of a vector; numpy adds in blocks, in an order of its own. *)
Variable np_sum : list float → float.

(** [(s**2).sum()*0.9] *)
Definition energy_threshold (s : list float) : float :=
  fmul (dt := float64) (np_sum ((λ x, fmul (dt := float64) x x) <$> s)) point_nine.

(** The loop, entered at position [i] with element [el]; the value is the
    [i] the loop is left with. *)
Fixpoint energy_loop (s : list float) (energy : float) (i : nat) (el : float)
    (rest : list float) : nat :=
  let energy := fadd (dt := float64) energy el in
  if fgt energy (energy_threshold s) then i
  else match rest with
       | [] => i
       | el' :: rest' => energy_loop s energy (S i) el' rest'
       end.

(** The cell: [NameError] at [k = i] when [s] is empty. *)
Definition energy_rank (s : list float) : option nat :=
  match s with
  | [] => None
  | el :: rest => Some (energy_loop s fzero 0 el rest)
  end.

(** The value of [energy] after the element at position [i] was added. *)
Definition running_energy (s : list float) (i : nat) : float :=
  foldl (fadd (dt := float64)) fzero (take (S i) s).
End Energy.

(** A stand-in for [np.sum] that adds from left to right. *)
Definition sum_left_to_right (l : list float) : float :=
  foldl (fadd (dt := float64)) fzero l.

(** ** The query cell (cell 12)

    [sliced = u[:, :k]]
    [indices = top_cosine_similarity(sliced, movie_id, top_n)]
    [print('Query: ...'.format(df_m.loc[0].title, df_m.loc[0].genres))]
    [for idx in indices[1:]:]
    [    print('Recommended: ...'.format(df_m.loc[idx-1].title, ...))]

    [df_m] is a data frame with the default index [0, 1, ...]; a row is
    whatever it holds for one movie. *)

(** [df.loc[label]] on the default index: [KeyError] for a label that is
    not a row number. *)
Definition loc {A} (df : list A) (label : Z) : option A :=
  if bool_decide (0 ≤ label < Z.of_nat (length df)) then df !! Z.to_nat label
  else None.

(** The rows the cell prints: the query line and the recommended lines. *)
Definition query_cell {A} `{dt : dtype} (df_m : list A) (u : ndarray float)
    (k : nat) (movie_id top_n : Z) : option (A * list A) :=
  let sliced := first_columns k u in
  indices ← top_cosine_similarity sliced movie_id top_n;
  query ← loc df_m 0;
  recommended ← mapM (λ idx, loc df_m (idx - 1)) (drop 1 indices);
  Some (query, recommended).

(** ** The ranker over numpy's own routines

    numpy leaves the order in which [np.dot] and [np.einsum] add up their
    products, and whether they fuse a product with an addition, to the BLAS
    and the instruction set it was built for; the order [np.argsort] gives
    equal keys is that of its sort kind.  Here the three routines are
    parameters, described by what numpy documents of them; [dot],
    [sum_squares] and [argsort] above are one choice. *)

Section RankerRoutines.
Context {dt : dtype}.

(** [np.dot(v, m)] for a vector and a matrix. *)
Variable np_dot_vm : list float → ndarray float → list float.
(** [np.einsum('ij, ij -> i', a, a)] *)
Variable np_einsum_rows : ndarray float → list float.
Variable np_argsort : list float → list nat.

Definition similarity_with (data : ndarray float) (movie_id : Z)
    : option (list float) :=
  let index := movie_id - 1 in
  i ← py_index (nrows data) index;
  movie_row ← cells data !! i;
  let magnitude := fsqrt <$> np_einsum_rows data in
  mi ← magnitude !! i;
  Some (zip_with fdiv (np_dot_vm movie_row (transpose data)) (fmul mi <$> magnitude)).

Definition top_cosine_similarity_with (data : ndarray float) (movie_id : Z)
    (top_n : Z) : option (list Z) :=
  similarity ← similarity_with data movie_id;
  let sort_indices :=
    (λ j : Z, j + 1) <$> (Z.of_nat <$> np_argsort (fneg <$> similarity)) in
  Some (py_slice_to sort_indices top_n).
End RankerRoutines.

(** The routines return one number per row, and a sorting permutation of
    the positions: a key found earlier is never above one found later, in
    numpy's order, which puts NaN last. *)
Definition rows_contract (np_dot_vm : list float → ndarray float → list float)
    (np_einsum_rows : ndarray float → list float) : Prop :=
  (∀ v m, wf_array m → length v = nrows m → length (np_dot_vm v m) = ncols m) ∧
  (∀ a, wf_array a → length (np_einsum_rows a) = nrows a).

Definition argsort_contract (np_argsort : list float → list nat) : Prop :=
  ∀ keys,
    np_argsort keys ≡ₚ seq 0 (length keys) ∧
    ∀ (p q i j : nat) a b, (p < q)%nat →
      np_argsort keys !! p = Some i → np_argsort keys !! q = Some j →
      keys !! i = Some a → keys !! j = Some b →
      np_lt b a = false.

(** The routines of the first model. *)
Definition dot_vm `{dt : dtype} (v : list float) (m : ndarray float) : list float :=
  dot v <$> cells (transpose m).
Definition einsum_rows `{dt : dtype} (a : ndarray float) : list float :=
  sum_squares <$> cells a.

(** ** Arrays on the interpreter's heap

    Arrays are objects on the heap and a variable holds a reference.
    [data[index, :]], [data.T] and [v[:top_n]] are views: they share the
    buffer of the array they are taken from.  [a -= b] and [a[mask] = v]
    write into the buffer of [a]; the other operations of the notebook
    allocate their result. *)

Inductive buffer :=
  | FloatMatrix (a : ndarray float)
  | FloatVector (v : list float)
  | IntVector (v : list Z)
  | BoolMatrix (a : ndarray bool).

Abbreviation heap := (list buffer).

Inductive array :=
  | Owner (l : nat)
  | RowView (l : nat) (i : nat)
  | TransposeView (l : nat)
  | PrefixView (l : nat) (stop : Z).

Definition read_matrix (a : array) (h : heap) : option (ndarray float) :=
  match a with
  | Owner l =>
      match h !! l with Some (FloatMatrix d) => Some d | _ => None end
  | TransposeView l =>
      match h !! l with Some (FloatMatrix d) => Some (transpose d) | _ => None end
  | _ => None
  end.

Definition read_floats (a : array) (h : heap) : option (list float) :=
  match a with
  | Owner l =>
      match h !! l with Some (FloatVector v) => Some v | _ => None end
  | RowView l i =>
      match h !! l with Some (FloatMatrix d) => cells d !! i | _ => None end
  | _ => None
  end.

Definition read_ints (a : array) (h : heap) : option (list Z) :=
  match a with
  | Owner l =>
      match h !! l with Some (IntVector v) => Some v | _ => None end
  | PrefixView l stop =>
      match h !! l with Some (IntVector v) => Some (py_slice_to v stop) | _ => None end
  | _ => None
  end.

Definition read_bools (a : array) (h : heap) : option (ndarray bool) :=
  match a with
  | Owner l =>
      match h !! l with Some (BoolMatrix d) => Some d | _ => None end
  | _ => None
  end.

(** Computations that read, extend and change the heap, or raise. *)
Definition M (A : Type) : Type := heap → option (A * heap).

Definition ret {A} (x : A) : M A := λ h, Some (x, h).
Definition bind {A B} (m : M A) (f : A → M B) : M B :=
  λ h, match m h with Some (x, h') => f x h' | None => None end.
Definition get {A} (read : heap → option A) : M A :=
  λ h, match read h with Some x => Some (x, h) | None => None end.
Definition alloc (b : buffer) : M array :=
  λ h, Some (Owner (length h), h ++ [b]).
Definition raise {A} : M A := λ _, None.
(** Writing into the buffer of an array that owns one. *)
Definition overwrite (a : array) (b : buffer) : M unit :=
  match a with
  | Owner l =>
      λ h, if decide (l < length h)%nat then Some (tt, <[l := b]> h) else None
  | _ => raise
  end.

Notation "'let*' x := m 'in' f" := (bind m (λ x, f))
  (at level 10, x name, m at level 100, f at level 200, only parsing).

(** *** The ranker *)

Section RankerHeap.
Context {dt : dtype}.
Variable np_dot_vm : list float → ndarray float → list float.
Variable np_einsum_rows : ndarray float → list float.
Variable np_argsort : list float → list nat.

(** [a[index, :]] *)
Definition row_view (a : array) (index : Z) : M array :=
  match a with
  | Owner l =>
      let* d := get (read_matrix a) in
      match py_index (nrows d) index with
      | Some i => ret (RowView l i)
      | None => raise
      end
  | _ => raise
  end.

(** [a.T] *)
Definition transposed (a : array) : M array :=
  match a with
  | Owner l => ret (TransposeView l)
  | _ => raise
  end.

(** [v[:stop]] *)
Definition slice_to (v : array) (stop : Z) : M array :=
  match v with
  | Owner l => ret (PrefixView l stop)
  | _ => raise
  end.

(** [v[index]] *)
Definition item (v : array) (index : Z) : M float :=
  let* x := get (read_floats v) in
  match py_index (length x) index with
  | Some i => get (λ _, x !! i)
  | None => raise
  end.

Definition np_einsum (a : array) : M array :=
  let* d := get (read_matrix a) in alloc (FloatVector (np_einsum_rows d)).

Definition np_sqrt (v : array) : M array :=
  let* x := get (read_floats v) in alloc (FloatVector (fsqrt <$> x)).

Definition np_dot_heap (v m : array) : M array :=
  let* x := get (read_floats v) in
  let* d := get (read_matrix m) in
  alloc (FloatVector (np_dot_vm x d)).

(** [c * v] for a number and a vector. *)
Definition scale (c : float) (v : array) : M array :=
  let* x := get (read_floats v) in alloc (FloatVector (fmul c <$> x)).

(** [u / v] *)
Definition divide (u v : array) : M array :=
  let* x := get (read_floats u) in
  let* y := get (read_floats v) in
  alloc (FloatVector (zip_with fdiv x y)).

(** [-v] *)
Definition negative (v : array) : M array :=
  let* x := get (read_floats v) in alloc (FloatVector (fneg <$> x)).

Definition np_argsort_heap (v : array) : M array :=
  let* x := get (read_floats v) in alloc (IntVector (Z.of_nat <$> np_argsort x)).

(** [v + c] for a vector of integers. *)
Definition add_int (v : array) (c : Z) : M array :=
  let* x := get (read_ints v) in alloc (IntVector ((λ j, j + c) <$> x)).

Definition top_cosine_similarity_heap (data : array) (movie_id : Z) (top_n : Z)
    : M array :=
  let index := movie_id - 1 in
  let* movie_row := row_view data index in
  let* squares := np_einsum data in
  let* magnitude := np_sqrt squares in
  let* data_T := transposed data in
  let* products := np_dot_heap movie_row data_T in
  let* mi := item magnitude index in
  let* scaled := scale mi magnitude in
  let* similarity := divide products scaled in
  let* negated := negative similarity in
  let* order := np_argsort_heap negated in
  let* sort_indices := add_int order 1 in
  slice_to sort_indices top_n.

(** The arrays one call allocates, in order: the sums of squares, the
    magnitudes, the products, the scaled magnitudes, the similarities, their
    negation, the sorting permutation and the identifiers. *)
Definition allocated (D : ndarray float) (row : list float) (mi : float) : list buffer :=
  let squares := np_einsum_rows D in
  let magnitude := fsqrt <$> squares in
  let products := np_dot_vm row (transpose D) in
  let scaled := fmul mi <$> magnitude in
  let similarity := zip_with fdiv products scaled in
  let negated := fneg <$> similarity in
  let order := Z.of_nat <$> np_argsort negated in
  [FloatVector squares; FloatVector magnitude; FloatVector products;
   FloatVector scaled; FloatVector similarity; FloatVector negated;
   IntVector order; IntVector ((λ j, j + 1) <$> order)].
End RankerHeap.

(** *** The demeaning cell *)

Section DemeanHeap.
Context {dt : dtype}.
Variable np_add_reduce : list float → float.

(** [np.nanmean(a, axis=0, keepdims=True)]: a matrix with one row. *)
Definition np_nanmean (a : array) : M array :=
  let* d := get (read_matrix a) in
  alloc (FloatMatrix (mk_ndarray 1 (ncols d) [column_means_with np_add_reduce d])).

(** [a -= b] for a matrix [a] and a one-row matrix [b], which is broadcast
    along the rows of [a]. *)
Definition isub (a b : array) : M unit :=
  let* d := get (read_matrix a) in
  let* m := get (read_matrix b) in
  match cells m with
  | [mean] =>
      if decide (nrows m = 1%nat ∧ ncols m = ncols d)
      then overwrite a
             (FloatMatrix (mk_ndarray (nrows d) (ncols d)
                             ((λ row, zip_with fsub row mean) <$> cells d)))
      else raise
  | _ => raise
  end.

Definition np_isnan (a : array) : M array :=
  let* d := get (read_matrix a) in
  alloc (BoolMatrix (mk_ndarray (nrows d) (ncols d)
                       ((λ row : list float, is_nan <$> row) <$> cells d))).

(** [a[mask] = v] *)
Definition setitem_mask (a mask : array) (v : float) : M unit :=
  let* d := get (read_matrix a) in
  let* k := get (read_bools mask) in
  if decide (shape k = shape d)
  then overwrite a
         (FloatMatrix (mk_ndarray (nrows d) (ncols d)
                         (zip_with (zip_with (λ (b : bool) x, if b then v else x))
                            (cells k) (cells d))))
  else raise.

Definition demeaning_cell (ratings : array) : M unit :=
  let* mean := np_nanmean ratings in
  let* subtracted := isub ratings mean in
  let* mask := np_isnan ratings in
  setitem_mask ratings mask fzero.
End DemeanHeap.

(** * Properties *)

(** ** Facts about sorted lists *)

Lemma StronglySorted_lookup_lt {A} (R : relation A) (l : list A) (p q : nat) (x y : A) :
  StronglySorted R l → (p < q)%nat → l !! p = Some x → l !! q = Some y → R x y.
Proof.
  intros Hs. revert p q. induction Hs as [|z l Hs IH Hz]; intros p q Hpq Hp Hq.
  - by rewrite lookup_nil in Hp.
  - destruct q as [|q]; [lia|]. destruct p as [|p]; simpl in *.
    + injection Hp as <-. rewrite Forall_forall in Hz.
      apply Hz. by eapply list_elem_of_lookup_2.
    + eapply (IH p q); [lia|done..].
Qed.

(** ** [np.argsort]: a permutation of the positions, in key order *)

Section ArgsortFacts.
Context {K : Type} (lt : K → K → bool).

Lemma insert_key_perm (x : K * nat) (l : list (K * nat)) :
  insert_key lt x l ≡ₚ x :: l.
Proof.
  induction l as [|y t IH]; simpl; [done|].
  destruct (lt y.1 x.1); [|done].
  rewrite IH. apply Permutation_swap.
Qed.

Lemma sort_keys_perm (l : list (K * nat)) : sort_keys lt l ≡ₚ l.
Proof.
  induction l as [|x l IH]; simpl; [done|].
  by rewrite insert_key_perm, IH.
Qed.

Lemma argsort_by_perm (v : list K) : argsort_by lt v ≡ₚ seq 0 (length v).
Proof.
  unfold argsort_by. rewrite sort_keys_perm.
  rewrite snd_zip; [done|]. by rewrite length_seq.
Qed.

Lemma length_argsort_by (v : list K) : length (argsort_by lt v) = length v.
Proof. by rewrite argsort_by_perm, length_seq. Qed.

Lemma NoDup_argsort_by (v : list K) : NoDup (argsort_by lt v).
Proof. rewrite argsort_by_perm. apply NoDup_seq. Qed.

Lemma elem_of_argsort_by (v : list K) (i : nat) :
  i ∈ argsort_by lt v ↔ (i < length v)%nat.
Proof. rewrite argsort_by_perm, elem_of_seq. lia. Qed.

(** Every sorted pair is a key together with its original position. *)
Lemma sort_keys_lookup (v : list K) (p : nat) (a : K) (i : nat) :
  sort_keys lt (zip v (seq 0 (length v))) !! p = Some (a, i) → v !! i = Some a.
Proof.
  intros Hp. apply list_elem_of_lookup_2 in Hp.
  rewrite sort_keys_perm in Hp.
  apply list_elem_of_lookup_1 in Hp as [n Hn].
  apply lookup_zip_Some in Hn as [Hv Hs].
  apply lookup_seq in Hs as [-> _]. done.
Qed.

Lemma argsort_by_lookup (v : list K) (p i : nat) :
  argsort_by lt v !! p = Some i →
  ∃ a, sort_keys lt (zip v (seq 0 (length v))) !! p = Some (a, i) ∧ v !! i = Some a.
Proof.
  unfold argsort_by. rewrite list_lookup_fmap.
  destruct (sort_keys lt _ !! p) as [[a j]|] eqn:Hp; simpl; [|done].
  intros [= ->]. exists a. split; [done|]. by eapply sort_keys_lookup.
Qed.

Hypothesis lt_asym : ∀ a b, lt a b = true → lt b a = false.
Hypothesis lt_negtrans : ∀ a b c, lt a c = true → lt a b = true ∨ lt b c = true.

Lemma key_le_trans (x y z : K * nat) :
  key_le lt x y → key_le lt y z → key_le lt x z.
Proof.
  unfold key_le. intros Hxy Hyz.
  destruct (lt z.1 x.1) eqn:Hzx; [|done].
  destruct (lt_negtrans _ y.1 _ Hzx); congruence.
Qed.

Lemma insert_key_sorted (x : K * nat) (l : list (K * nat)) :
  StronglySorted (key_le lt) l → StronglySorted (key_le lt) (insert_key lt x l).
Proof.
  induction 1 as [|y t Hs IH Hy]; simpl.
  - repeat constructor.
  - destruct (lt y.1 x.1) eqn:Hyx.
    + constructor; [done|].
      rewrite insert_key_perm. constructor; [|done].
      by apply lt_asym.
    + constructor; [by constructor|].
      constructor; [done|].
      eapply Forall_impl; [exact Hy|].
      intros z Hz. by eapply key_le_trans.
Qed.

Lemma sort_keys_sorted (l : list (K * nat)) : StronglySorted (key_le lt) (sort_keys lt l).
Proof.
  induction l as [|x l IH]; simpl; [constructor|]. by apply insert_key_sorted.
Qed.

(** The key found earlier in the result is never greater than one found
    later. *)
Lemma argsort_by_ordered (v : list K) (p q i j : nat) (a b : K) :
  (p < q)%nat →
  argsort_by lt v !! p = Some i → argsort_by lt v !! q = Some j →
  v !! i = Some a → v !! j = Some b →
  lt b a = false.
Proof.
  intros Hpq Hp Hq Hi Hj.
  apply argsort_by_lookup in Hp as (a' & Hp & Hi').
  apply argsort_by_lookup in Hq as (b' & Hq & Hj').
  assert (a' = a) as -> by congruence. assert (b' = b) as -> by congruence.
  exact (StronglySorted_lookup_lt (key_le lt) _ p q (a, i) (b, j)
           (sort_keys_sorted _) Hpq Hp Hq).
Qed.
End ArgsortFacts.

(** ** The order on floats used by the sort *)

Ltac cmp_cases :=
  repeat match goal with
  | |- context [Z.compare ?a ?b] => destruct (Z.compare_spec a b)
  | |- context [Pos.compare_cont Eq ?a ?b] =>
      change (Pos.compare_cont Eq a b) with (Pos.compare a b);
      destruct (Pos.compare_spec a b)
  | H : context [Z.compare ?a ?b] |- _ => destruct (Z.compare_spec a b)
  | H : context [Pos.compare_cont Eq ?a ?b] |- _ =>
      change (Pos.compare_cont Eq a b) with (Pos.compare a b) in H;
      destruct (Pos.compare_spec a b)
  end.

Ltac float_cases x :=
  let s := fresh "s" in let m := fresh "m" in let e := fresh "e" in
  destruct x as [[]|[]| |[] m e].

Lemma SFltb_asym (a b : float) : SFltb a b = true → SFltb b a = false.
Proof.
  unfold SFltb. float_cases a; float_cases b; simpl; try done;
    cmp_cases; simpl; try done; subst; lia.
Qed.

Lemma SFltb_negtrans (a b c : float) :
  is_nan b = false → SFltb a c = true → SFltb a b = true ∨ SFltb b c = true.
Proof.
  unfold SFltb. float_cases a; float_cases b; float_cases c;
    simpl; try done; auto; intros _; cmp_cases; simpl; try done; auto;
    subst; try lia.
Qed.

Lemma SFltb_not_nan (a b : float) :
  SFltb a b = true → is_nan a = false ∧ is_nan b = false.
Proof. by destruct a, b. Qed.

Lemma np_lt_asym (a b : float) : np_lt a b = true → np_lt b a = false.
Proof.
  unfold np_lt. intros [H|H]%orb_true_iff.
  - destruct (SFltb_not_nan _ _ H) as [-> ->]. rewrite (SFltb_asym _ _ H). done.
  - apply andb_true_iff in H as [Hb Ha%negb_true_iff].
    rewrite Ha, Hb. by destruct b, a.
Qed.

Lemma np_lt_negtrans (a b c : float) :
  np_lt a c = true → np_lt a b = true ∨ np_lt b c = true.
Proof.
  unfold np_lt. intros [H|H]%orb_true_iff.
  - destruct (SFltb_not_nan _ _ H) as [Ha Hc].
    destruct (is_nan b) eqn:Hb.
    + left. rewrite Ha. apply orb_true_r.
    + destruct (SFltb_negtrans a b c Hb H) as [-> | ->]; auto.
  - apply andb_true_iff in H as [Hc Ha%negb_true_iff].
    destruct (is_nan b) eqn:Hb.
    + left. rewrite Ha. apply orb_true_r.
    + right. rewrite Hc. apply orb_true_r.
Qed.

(** Sorting [-similarity] upwards sorts [similarity] downwards. *)
Lemma np_lt_fneg_le (a b : float) :
  is_nan a = false → is_nan b = false →
  np_lt (fneg b) (fneg a) = false → fle b a = true.
Proof.
  unfold np_lt, fle, fneg, SFltb, SFleb.
  float_cases a; float_cases b; simpl; try done;
    intros _ _; cmp_cases; simpl; try done; subst; lia.
Qed.

Lemma np_lt_fneg_lt (a b : float) :
  SFltb b a = true → np_lt (fneg a) (fneg b) = true.
Proof.
  unfold np_lt, fneg, SFltb.
  float_cases a; float_cases b; simpl; try done;
    cmp_cases; simpl; try done; subst; lia.
Qed.

(** NaN keys are never followed by a number. *)
Lemma np_lt_nan_last (a b : float) :
  is_nan a = true → np_lt (fneg b) (fneg a) = false → is_nan b = true.
Proof. by destruct a, b as [| | |[]]. Qed.

(** ** Arithmetic on zeros and NaN *)

Section ZeroArith.
Context {dt : dtype}.

Lemma fmul_zero_r (x y : float) : is_zero y = true → zero_or_nan (fmul x y) = true.
Proof. by destruct x, y. Qed.

Lemma fmul_zero_or_nan_r (x y : float) :
  zero_or_nan y = true → zero_or_nan (fmul x y) = true.
Proof. by destruct x, y. Qed.

Lemma fmul_zero_or_nan_l (x y : float) :
  zero_or_nan x = true → zero_or_nan (fmul x y) = true.
Proof. by destruct x, y. Qed.

Lemma fmul_zero_zero (x : float) : is_zero x = true → fmul x x = fzero.
Proof. by destruct x as [[]| | |]. Qed.

Lemma fadd_zero_or_nan (x y : float) :
  zero_or_nan x = true → zero_or_nan y = true → zero_or_nan (fadd x y) = true.
Proof. by destruct x as [[]| | |], y as [[]| | |]. Qed.

Lemma fdiv_zero_or_nan (x y : float) :
  zero_or_nan x = true → zero_or_nan y = true → fdiv x y = S754_nan.
Proof. by destruct x, y. Qed.

Lemma fdiv_by_zero_or_nan (x y : float) :
  zero_or_nan y = true → is_finite (fdiv x y) = false.
Proof. by destruct x, y. Qed.

Lemma foldl_fadd_zero_or_nan (l : list float) (acc : float) :
  zero_or_nan acc = true → Forall (λ x, zero_or_nan x = true) l →
  zero_or_nan (foldl fadd acc l) = true.
Proof.
  intros Hacc Hl. revert acc Hacc.
  induction Hl as [|x l Hx Hl IH]; intros acc Hacc; simpl; [done|].
  apply IH. by apply fadd_zero_or_nan.
Qed.

(** The dot product with a row of zeros is a zero, or NaN when the other
    row holds an infinity or a NaN. *)
Lemma dot_zero_row_r (u v : list float) :
  Forall (λ x, is_zero x = true) v → zero_or_nan (dot u v) = true.
Proof.
  intros Hv. unfold dot. apply foldl_fadd_zero_or_nan; [done|].
  revert u. induction Hv as [|y v Hy Hv IH]; intros [|x u]; simpl; try constructor.
  - by apply fmul_zero_r.
  - apply IH.
Qed.

Lemma dot_zero_row_l (u v : list float) :
  Forall (λ x, is_zero x = true) u → zero_or_nan (dot u v) = true.
Proof.
  intros Hu. unfold dot. apply foldl_fadd_zero_or_nan; [done|].
  revert v. induction Hu as [|x u Hx Hu IH]; intros [|y v]; simpl; try constructor.
  - apply fmul_zero_or_nan_l. unfold zero_or_nan. by rewrite Hx.
  - apply IH.
Qed.

Lemma sum_squares_zero_row (r : list float) :
  Forall (λ x, is_zero x = true) r → sum_squares r = fzero.
Proof.
  unfold sum_squares. induction 1 as [|x r Hx Hr IH]; simpl; [done|].
  by rewrite fmul_zero_zero.
Qed.

(** An all-zero row has magnitude zero, and its similarity to any query row
    is [0/0] or worse. *)
Lemma similarity_entry_zero_row (mr row : list float) (mi : float) :
  Forall (λ x, is_zero x = true) row →
  fdiv (dot mr row) (fmul mi (fsqrt (sum_squares row))) = S754_nan.
Proof.
  intros Hrow. apply fdiv_zero_or_nan.
  - by apply dot_zero_row_r.
  - apply fmul_zero_or_nan_r. by rewrite sum_squares_zero_row.
Qed.

Lemma similarity_entry_zero_query (mr row : list float) (m : float) :
  Forall (λ x, is_zero x = true) mr →
  fdiv (dot mr row) (fmul (fsqrt (sum_squares mr)) m) = S754_nan.
Proof.
  intros Hmr. apply fdiv_zero_or_nan.
  - by apply dot_zero_row_l.
  - apply fmul_zero_or_nan_l. by rewrite sum_squares_zero_row.
Qed.

Lemma dot_self (r : list float) : dot r r = sum_squares r.
Proof. unfold dot, sum_squares. by rewrite zip_with_diag. Qed.
End ZeroArith.

(** ** Python indexing and slicing *)

Lemma py_index_lt (n : nat) (i : Z) (k : nat) : py_index n i = Some k → (k < n)%nat.
Proof. unfold py_index. repeat case_bool_decide; intros [=]; lia. Qed.

Lemma py_index_in_range (n : nat) (i : Z) :
  0 ≤ i < Z.of_nat n → py_index n i = Some (Z.to_nat i).
Proof. intros Hi. unfold py_index. by rewrite bool_decide_eq_true_2. Qed.

Lemma py_index_is_Some (n : nat) (i : Z) :
  - Z.of_nat n ≤ i < Z.of_nat n → is_Some (py_index n i).
Proof. intros Hi. unfold py_index. repeat case_bool_decide; eauto; lia. Qed.

Lemma py_slice_to_take {A} (l : list A) (stop : Z) :
  ∃ k, py_slice_to l stop = take k l ∧ (0 ≤ stop → k = Z.to_nat stop).
Proof.
  unfold py_slice_to. case_bool_decide; eexists; (split; [done|lia]).
Qed.

(** ** The ranking *)

Lemma length_sort_indices (sim : list float) :
  length (sort_indices sim) = length sim.
Proof.
  unfold sort_indices, argsort.
  by rewrite length_fmap, length_argsort_by, length_fmap.
Qed.

Lemma NoDup_sort_indices (sim : list float) : NoDup (sort_indices sim).
Proof.
  unfold sort_indices, argsort. apply NoDup_fmap_2; [|apply NoDup_argsort_by].
  intros a b. lia.
Qed.

Lemma elem_of_sort_indices (sim : list float) (id : Z) :
  id ∈ sort_indices sim ↔ 1 ≤ id ≤ Z.of_nat (length sim).
Proof.
  unfold sort_indices, argsort. rewrite list_elem_of_fmap. split.
  - intros (j & -> & Hj). apply elem_of_argsort_by in Hj.
    rewrite length_fmap in Hj. lia.
  - intros Hid. exists (Z.to_nat (id - 1)). split; [lia|].
    apply elem_of_argsort_by. rewrite length_fmap. lia.
Qed.

Lemma sort_indices_lookup (sim : list float) (p : nat) (id : Z) :
  sort_indices sim !! p = Some id →
  ∃ j, argsort_by np_lt (fneg <$> sim) !! p = Some j ∧ id = Z.of_nat j + 1 ∧
       (fneg <$> sim) !! j = Some (fneg (row_similarity sim id)).
Proof.
  unfold sort_indices, argsort. rewrite list_lookup_fmap.
  destruct (argsort_by _ _ !! p) as [j|] eqn:Hj; simpl; [|done].
  intros [= <-]. exists j. split; [done|]. split; [done|].
  destruct (argsort_by_lookup _ _ _ _ Hj) as (a & _ & Ha).
  rewrite Ha. rewrite list_lookup_fmap in Ha.
  unfold row_similarity. replace (Z.to_nat (Z.of_nat j + 1 - 1)) with j by lia.
  destruct (sim !! j); simpl in *; congruence.
Qed.

(** Earlier identifiers carry keys that are not above later ones. *)
Lemma sort_indices_ordered (sim : list float) (p q : nat) (a b : Z) :
  (p < q)%nat → sort_indices sim !! p = Some a → sort_indices sim !! q = Some b →
  np_lt (fneg (row_similarity sim b)) (fneg (row_similarity sim a)) = false.
Proof.
  intros Hpq Ha Hb.
  apply sort_indices_lookup in Ha as (i & Hi & _ & Hai).
  apply sort_indices_lookup in Hb as (j & Hj & _ & Hbj).
  exact (argsort_by_ordered np_lt np_lt_asym np_lt_negtrans _ p q i j _ _
           Hpq Hi Hj Hai Hbj).
Qed.

Lemma row_similarity_not_nan (sim : list float) (id : Z) :
  Forall (λ s, is_nan s = false) sim → 1 ≤ id ≤ Z.of_nat (length sim) →
  is_nan (row_similarity sim id) = false.
Proof.
  intros Hsim Hid. unfold row_similarity.
  destruct (sim !! Z.to_nat (id - 1)) as [a|] eqn:Ha; simpl.
  - rewrite Forall_forall in Hsim. apply Hsim. by eapply list_elem_of_lookup_2.
  - apply lookup_ge_None in Ha. lia.
Qed.

(** ** The similarity vector *)

Section RankerFacts.
Context {dt : dtype}.

Lemma similarity_inv (data : ndarray float) (movie_id : Z) (sim : list float) :
  similarity data movie_id = Some sim →
  ∃ i mr, py_index (nrows data) (movie_id - 1) = Some i ∧
          cells data !! i = Some mr ∧
          sim = zip_with fdiv (dot mr <$> cells data)
                  (fmul (fsqrt (sum_squares mr)) <$> magnitudes data).
Proof.
  unfold similarity. intros H.
  apply bind_Some in H as (i & Hi & H).
  apply bind_Some in H as (mr & Hmr & H).
  apply bind_Some in H as (mi & Hmi & H).
  exists i, mr. split; [done|]. split; [done|].
  unfold magnitudes in Hmi. rewrite list_lookup_fmap, Hmr in Hmi.
  injection Hmi as <-. by injection H as <-.
Qed.

Lemma similarity_valid (data : ndarray float) (movie_id : Z) :
  wf_array data →
  - Z.of_nat (nrows data) ≤ movie_id - 1 < Z.of_nat (nrows data) →
  is_Some (similarity data movie_id).
Proof.
  intros [Hlen _] Hid. unfold similarity.
  destruct (py_index_is_Some _ _ Hid) as [i Hi].
  pose proof (py_index_lt _ _ _ Hi) as Hlt. rewrite <- Hlen in Hlt.
  destruct (lookup_lt_is_Some_2 _ _ Hlt) as [mr Hmr].
  eexists. apply bind_Some. exists i. split; [done|].
  apply bind_Some. exists mr. split; [done|].
  apply bind_Some. eexists. split; [|done].
  unfold magnitudes. by rewrite list_lookup_fmap, Hmr.
Qed.

Lemma length_similarity (data : ndarray float) (movie_id : Z) (sim : list float) :
  similarity data movie_id = Some sim → length sim = length (cells data).
Proof.
  intros (i & mr & _ & _ & ->)%similarity_inv.
  unfold magnitudes. rewrite length_zip_with, !length_fmap. lia.
Qed.

Lemma similarity_lookup (data : ndarray float) (movie_id : Z) (sim : list float) :
  similarity data movie_id = Some sim →
  ∃ i mr, py_index (nrows data) (movie_id - 1) = Some i ∧
          cells data !! i = Some mr ∧
          ∀ j row, cells data !! j = Some row →
            sim !! j = Some (fdiv (dot mr row)
                               (fmul (fsqrt (sum_squares mr)) (fsqrt (sum_squares row)))).
Proof.
  intros (i & mr & Hi & Hmr & ->)%similarity_inv.
  exists i, mr. split; [done|]. split; [done|].
  intros j row Hrow. unfold magnitudes.
  rewrite lookup_zip_with, !list_lookup_fmap, Hrow. done.
Qed.

Lemma top_cosine_similarity_eq (data : ndarray float) (movie_id top_n : Z)
    (sim : list float) :
  similarity data movie_id = Some sim →
  top_cosine_similarity data movie_id top_n = Some (py_slice_to (sort_indices sim) top_n).
Proof. unfold top_cosine_similarity. by intros ->. Qed.
End RankerFacts.

(** ** The returned list *)

Section TopN.
Context {dt : dtype}.

Lemma top_n_prefix (sim : list float) (top_n : Z) :
  ∃ k, py_slice_to (sort_indices sim) top_n = take k (sort_indices sim) ∧
       (0 ≤ top_n → k = Z.to_nat top_n).
Proof. apply py_slice_to_take. Qed.

Lemma NoDup_top_n (sim : list float) (top_n : Z) :
  NoDup (py_slice_to (sort_indices sim) top_n).
Proof.
  destruct (top_n_prefix sim top_n) as (k & -> & _).
  eapply sublist_NoDup; [apply NoDup_sort_indices|apply sublist_take].
Qed.

Lemma elem_of_top_n (sim : list float) (top_n id : Z) :
  id ∈ py_slice_to (sort_indices sim) top_n → 1 ≤ id ≤ Z.of_nat (length sim).
Proof.
  destruct (top_n_prefix sim top_n) as (k & -> & _).
  intros (p & Hp & _)%elem_of_take.
  apply elem_of_sort_indices. by eapply list_elem_of_lookup_2.
Qed.

Lemma top_n_ordered (sim : list float) (top_n : Z) (p q : nat) (a b : Z) :
  (p < q)%nat →
  py_slice_to (sort_indices sim) top_n !! p = Some a →
  py_slice_to (sort_indices sim) top_n !! q = Some b →
  np_lt (fneg (row_similarity sim b)) (fneg (row_similarity sim a)) = false.
Proof.
  destruct (top_n_prefix sim top_n) as (k & -> & _).
  intros Hpq [Ha _]%lookup_take_Some [Hb _]%lookup_take_Some.
  by eapply sort_indices_ordered.
Qed.

(** An identifier left out of the list sits further down the ranking than
    every identifier in it. *)
Lemma top_n_dominates (sim : list float) (top_n a b : Z) :
  a ∈ py_slice_to (sort_indices sim) top_n →
  1 ≤ b ≤ Z.of_nat (length sim) →
  b ∉ py_slice_to (sort_indices sim) top_n →
  np_lt (fneg (row_similarity sim b)) (fneg (row_similarity sim a)) = false.
Proof.
  destruct (top_n_prefix sim top_n) as (k & -> & _).
  intros (p & Hp & Hpk)%elem_of_take Hb Hnb.
  apply elem_of_sort_indices, list_elem_of_lookup_1 in Hb as [q Hq].
  assert (k ≤ q)%nat as Hkq.
  { destruct (decide (q < k)%nat) as [Hlt|]; [|lia].
    exfalso. apply Hnb, elem_of_take. eauto. }
  eapply (sort_indices_ordered sim p q); [lia|done..].
Qed.
End TopN.




(** C2 (as the code behaves). When every computed similarity to the query
    row is a number (no NaN), [top_cosine_similarity data movie_id N] with a
    valid identifier and [1 <= N <= rows] returns the [N] row identifiers of
    highest computed similarity, in descending order of similarity. *)
Theorem top_cosine_similarity_top_n `{dt : dtype}
    (data : ndarray float) (movie_id N : Z) (sim : list float) :
  wf_array data →
  1 ≤ movie_id ≤ Z.of_nat (nrows data) →
  1 ≤ N ≤ Z.of_nat (nrows data) →
  similarity data movie_id = Some sim →
  Forall (λ s, is_nan s = false) sim →
  ∃ l, top_cosine_similarity data movie_id N = Some l ∧
       is_top_n sim (nrows data) N l.
Proof.
  intros [Hrows _] Hid HN Hsim Hnum.
  exists (py_slice_to (sort_indices sim) N).
  split; [by apply top_cosine_similarity_eq|].
  pose proof (length_similarity _ _ _ Hsim) as Hlen. rewrite Hrows in Hlen.
  assert (∀ id, id ∈ py_slice_to (sort_indices sim) N →
                1 ≤ id ≤ Z.of_nat (nrows data)) as Hrange.
  { intros id Hin%elem_of_top_n. by rewrite Hlen in Hin. }
  split.
  { destruct (top_n_prefix sim N) as (k & -> & Hk).
    rewrite length_take, length_sort_indices, Hk, Hlen; lia. }
  split; [apply NoDup_top_n|]. split; [done|]. split.
  - intros p q a b Hpq Ha Hb. apply np_lt_fneg_le.
    + apply row_similarity_not_nan; [done|]. rewrite Hlen.
      apply Hrange. by eapply list_elem_of_lookup_2.
    + apply row_similarity_not_nan; [done|]. rewrite Hlen.
      apply Hrange. by eapply list_elem_of_lookup_2.
    + by eapply top_n_ordered.
  - intros a b Ha Hb Hnb. apply np_lt_fneg_le.
    + apply row_similarity_not_nan; [done|]. rewrite Hlen. by apply Hrange.
    + apply row_similarity_not_nan; [done|]. by rewrite Hlen.
    + eapply top_n_dominates; [done| |done]. by rewrite Hlen.
Qed.

Lemma top_cosine_similarity_top_n_witness :
  ∃ l, top_cosine_similarity (dt := float64) pythagorean_example 1 2 = Some l ∧
       is_top_n (default [] (similarity (dt := float64) pythagorean_example 1)) 3 2 l.
Proof.
  apply (top_cosine_similarity_top_n (dt := float64) pythagorean_example 1 2).
  - split; [reflexivity|]. repeat constructor.
  - by vm_compute.
  - by vm_compute.
  - by vm_compute.
  - vm_compute. repeat constructor.
Defined.

(** The rows [(2^600, 0)] and [(0, 1)]: both magnitudes are nonzero, but the
    squared magnitude of the first overflows, its similarity with itself is
    [inf/inf], and the top-1 list for the first row is the second row, which
    is orthogonal to it. *)
Lemma top_cosine_similarity_overflow :
  Forall (λ m, is_zero m = false) (magnitudes (dt := float64) overflow_example) ∧
  similarity (dt := float64) overflow_example 1 = Some [S754_nan; fzero] ∧
  top_cosine_similarity (dt := float64) overflow_example 1 1 = Some [2] ∧
  ¬ is_top_n [S754_nan; fzero] 2 1 [2].
Proof.
  split; [by repeat constructor|]. split; [by vm_compute|].
  split; [by vm_compute|].
  intros (_ & _ & _ & _ & H).
  specialize (H 2 1). vm_compute in H.
  assert (false = true) as Hf; [|done].
  apply H.
  - apply list_elem_of_here.
  - split; discriminate.
  - intros Hin. apply list_elem_of_singleton in Hin. discriminate.
Qed.

(** ** Dividing a number by itself *)

Lemma div_eucl_shiftl (m : positive) (n : Z) :
  0 ≤ n → Z.div_eucl (Z.shiftl (Z.pos m) n) (Z.pos m) = (2 ^ n, 0).
Proof.
  intros Hn.
  assert (Z.shiftl (Z.pos m) n / Z.pos m = 2 ^ n) as Hq.
  { rewrite Z.shiftl_mul_pow2 by done. rewrite Z.mul_comm. by apply Z.div_mul. }
  assert (Z.shiftl (Z.pos m) n mod Z.pos m = 0) as Hr.
  { rewrite Z.shiftl_mul_pow2 by done. rewrite Z.mul_comm. by apply Z.mod_mul. }
  unfold Z.div, Z.modulo in Hq, Hr.
  destruct (Z.div_eucl _ _) as [q r]. simpl in *. congruence.
Qed.

Lemma fdiv_diag (dt : dtype) (s : bool) (m : positive) (e : Z) :
  dt = float32 ∨ dt = float64 →
  fdiv (S754_finite s m e) (S754_finite s m e) = fone.
Proof.
  intros Hdt.
  assert (∃ p, 0 ≤ p ∧ Z.min (fexp prec emax 0) 0 = - p ∧
               binary_round_aux prec emax false (2 ^ p) (- p) loc_Exact = fone)
    as (p & Hp & Hmin & Hone).
  { destruct Hdt as [-> | ->]; [exists 24 | exists 53]; done. }
  unfold fdiv, SFdiv, SFdiv_core_binary.
  replace (Zdigits2 (Z.pos m) + e - (Zdigits2 (Z.pos m) + e)) with 0 by lia.
  rewrite Z.sub_diag, Hmin.
  replace (0 - - p) with p by lia.
  assert (Z.div_eucl match p with
                     | 0 => Z.pos m
                     | Z.pos _ => Z.shiftl (Z.pos m) p
                     | Z.neg _ => 0
                     end (Z.pos m) = (2 ^ p, 0)) as ->.
  { rewrite <- (div_eucl_shiftl m p Hp). by destruct p. }
  unfold new_location, new_location_even, new_location_odd. simpl Z.eqb.
  rewrite <- Hone.
  destruct (Z.even (Z.pos m)), s; reflexivity.
Qed.

(** ** Transposition *)

Section Transpose.
Context {A : Type}.

Lemma length_columns_of (n : nat) (rows : list (list A)) :
  Forall (λ r, length r = n) rows → length (columns_of n rows) = n.
Proof.
  induction 1 as [|r rs Hr Hrs IH]; simpl.
  - apply length_replicate.
  - rewrite length_zip_with, IH, Hr. lia.
Qed.

Lemma columns_of_lookup (n : nat) (rows : list (list A)) (j : nat) :
  Forall (λ r, length r = n) rows → (j < n)%nat →
  ∃ col, columns_of n rows !! j = Some col ∧ length col = length rows ∧
         ∀ i row, rows !! i = Some row → col !! i = row !! j.
Proof.
  intros Hrows Hj. induction Hrows as [|r rs Hr Hrs IH]; simpl.
  - exists []. rewrite lookup_replicate_2 by done.
    split; [done|]. split; [done|]. intros i row. by rewrite lookup_nil.
  - destruct IH as (col & Hcol & Hlen & Hlk).
    destruct (lookup_lt_is_Some_2 r j) as [x Hx]; [lia|].
    exists (x :: col). rewrite lookup_zip_with, Hx, Hcol. simpl.
    split; [done|]. split; [by rewrite Hlen|].
    intros [|i] row; simpl.
    + intros [= <-]. done.
    + apply Hlk.
Qed.

Lemma wf_transpose (a : ndarray A) : wf_array a → wf_array (transpose a).
Proof.
  intros [Hlen Hrows]. split; simpl.
  - by apply length_columns_of.
  - apply Forall_lookup. intros j col Hcol.
    assert (j < ncols a)%nat as Hj.
    { apply lookup_lt_Some in Hcol. by rewrite length_columns_of in Hcol. }
    destruct (columns_of_lookup _ _ j Hrows Hj) as (col' & Hcol' & Hl & _).
    congruence.
Qed.
End Transpose.

(** ** The routines of the first model keep numpy's contracts *)

Lemma argsort_contract_argsort : argsort_contract argsort.
Proof.
  intros keys. split; [apply argsort_by_perm|].
  intros p q i j a b Hpq Hp Hq Hi Hj.
  by eapply (argsort_by_ordered np_lt np_lt_asym np_lt_negtrans keys p q i j).
Qed.

Lemma rows_contract_first_model `{dt : dtype} : rows_contract dot_vm einsum_rows.
Proof.
  split.
  - intros v m Hm _. unfold dot_vm. rewrite length_fmap.
    by destruct (wf_transpose m Hm) as [-> _].
  - intros a [Ha _]. unfold einsum_rows. by rewrite length_fmap.
Qed.

Section RoutineFacts.
Context {dt : dtype}.
Variable np_dot_vm : list float → ndarray float → list float.
Variable np_einsum_rows : ndarray float → list float.
Variable np_argsort : list float → list nat.
Hypothesis routines : rows_contract np_dot_vm np_einsum_rows.
Hypothesis sorting : argsort_contract np_argsort.

Lemma similarity_with_inv (data : ndarray float) (movie_id : Z) (sim : list float) :
  wf_array data →
  similarity_with np_dot_vm np_einsum_rows data movie_id = Some sim →
  ∃ i row mi,
    py_index (nrows data) (movie_id - 1) = Some i ∧
    cells data !! i = Some row ∧
    (fsqrt <$> np_einsum_rows data) !! i = Some mi ∧
    sim = zip_with fdiv (np_dot_vm row (transpose data))
            (fmul mi <$> (fsqrt <$> np_einsum_rows data)) ∧
    length sim = nrows data.
Proof.
  intros Hwf. unfold similarity_with.
  intros (i & Hi & (row & Hrow & (mi & Hmi & [= <-])%bind_Some)%bind_Some)%bind_Some.
  exists i, row, mi. repeat split; try done.
  destruct routines as [Hdot Heinsum].
  rewrite length_zip_with, !length_fmap, Heinsum by done.
  rewrite Hdot; [simpl; lia|by apply wf_transpose|]. simpl.
  destruct Hwf as [_ Hrows]. rewrite Forall_forall in Hrows.
  apply Hrows. by eapply list_elem_of_lookup_2.
Qed.

(** A row whose similarity is strictly above that of every other row comes
    first, whatever the sort does with equal keys. *)
Lemma strict_maximum_first (sim : list float) (i : nat) (top_n : Z) :
  (i < length sim)%nat →
  (∀ j a b, j ≠ i → sim !! j = Some a → sim !! i = Some b → SFltb a b = true) →
  1 ≤ top_n →
  ∃ rest,
    py_slice_to ((λ j : Z, j + 1) <$> (Z.of_nat <$> np_argsort (fneg <$> sim))) top_n
    = (Z.of_nat i + 1) :: rest.
Proof.
  intros Hi Hmax Htop.
  destruct (sorting (fneg <$> sim)) as [Hperm Hord].
  rewrite length_fmap in Hperm.
  assert (i ∈ np_argsort (fneg <$> sim)) as Hin.
  { rewrite Hperm. apply elem_of_seq. lia. }
  apply list_elem_of_lookup_1 in Hin as [q Hq].
  destruct (np_argsort (fneg <$> sim)) as [|i0 t] eqn:Hs; [by rewrite lookup_nil in Hq|].
  assert (i0 = i) as ->.
  { destruct q as [|q]; [simpl in Hq; congruence|].
    destruct (decide (i0 = i)) as [|Hne]; [done|]. exfalso.
    assert (i0 < length sim)%nat as Hi0.
    { assert (i0 ∈ seq 0 (length sim)) as Hin0 by (rewrite <- Hperm; left).
      apply elem_of_seq in Hin0. lia. }
    destruct (lookup_lt_is_Some_2 sim i0 Hi0) as [a Ha].
    destruct (lookup_lt_is_Some_2 sim i Hi) as [b Hb].
    pose proof (Hord 0%nat (S q) i0 i (fneg a) (fneg b)) as Ho.
    rewrite !list_lookup_fmap, Ha, Hb in Ho.
    specialize (Ho ltac:(lia) eq_refl Hq eq_refl eq_refl).
    by rewrite (np_lt_fneg_lt _ _ (Hmax i0 a b Hne Ha Hb)) in Ho. }
  destruct (py_slice_to_take ((λ j : Z, j + 1) <$> (Z.of_nat <$> i :: t)) top_n)
    as (k & -> & Hk).
  rewrite Hk by lia. destruct (Z.to_nat top_n) as [|k'] eqn:Hk'; [lia|].
  simpl. eauto.
Qed.
End RoutineFacts.




(** ** The ranker on the heap *)

Section HeapFacts.
Context {dt : dtype}.
Variable np_dot_vm : list float → ndarray float → list float.
Variable np_einsum_rows : ndarray float → list float.
Variable np_argsort : list float → list nat.

Lemma lookup_allocated (h new : heap) (k : nat) :
  (h ++ new) !! (length h + k)%nat = new !! k.
Proof. rewrite lookup_app_r by lia. f_equal. lia. Qed.

Lemma lookup_snoc_new (h : heap) (b : buffer) : (h ++ [b]) !! length h = Some b.
Proof. by apply list_lookup_middle. Qed.

Ltac heap_steps Hl :=
  repeat (cbv beta iota delta [read_floats read_matrix read_ints];
          repeat first
            [ rewrite lookup_snoc_new
            | rewrite lookup_app_l by (rewrite ?length_app; simpl; lia) ];
          rewrite ?Hl);
  cbn [mbind option_bind].

Lemma top_cosine_similarity_heap_eval (h : heap) (l : nat) (D : ndarray float)
    (movie_id top_n : Z) :
  h !! l = Some (FloatMatrix D) →
  top_cosine_similarity_heap np_dot_vm np_einsum_rows np_argsort
    (Owner l) movie_id top_n h
  = (i ← py_index (nrows D) (movie_id - 1);
     row ← cells D !! i;
     i' ← py_index (length (fsqrt <$> np_einsum_rows D)) (movie_id - 1);
     mi ← (fsqrt <$> np_einsum_rows D) !! i';
     Some (PrefixView (length h + 7) top_n, h ++ allocated np_dot_vm np_einsum_rows np_argsort D row mi)).
Proof.
  intros Hl. pose proof (lookup_lt_Some _ _ _ Hl) as Hlt.
  unfold top_cosine_similarity_heap, row_view, np_einsum, np_sqrt, transposed,
    np_dot_heap, item, scale, divide, negative, np_argsort_heap, add_int, slice_to.
  unfold bind, get, ret, raise, alloc.
  cbv beta iota delta [read_floats read_matrix read_ints]. rewrite Hl.
  destruct (py_index (nrows D) (movie_id - 1)) as [i|] eqn:Hi; [|done].
  heap_steps Hl.
  destruct (cells D !! i) as [row|]; [|done].
  heap_steps Hl.
  destruct (py_index (length (fsqrt <$> np_einsum_rows D)) (movie_id - 1))
    as [i'|]; [|done].
  heap_steps Hl.
  destruct ((fsqrt <$> np_einsum_rows D) !! i') as [mi|]; [|done].
  heap_steps Hl. cbn [mbind option_bind].
  f_equal. f_equal.
  - f_equal. rewrite !length_app. simpl. lia.
  - by rewrite <- !app_assoc.
Qed.
End HeapFacts.

(** C8. [top_cosine_similarity] is deterministic.  Take a heap that holds
    the factor matrix.  A call changes no array that was there before it.
    The same call made again on the heap the first one left returns a
    list with the same contents, and the first list still has them.  So
    does a call on any other heap that holds the same matrix, at whatever
    address: the list depends on the matrix, the query and the count only.
    If the call raises, every such call raises.  This holds for every
    choice of numpy's routines. *)
Theorem top_cosine_similarity_deterministic `{dt : dtype}
    (np_dot_vm : list float → ndarray float → list float)
    (np_einsum_rows : ndarray float → list float)
    (np_argsort : list float → list nat)
    (h h' : heap) (l l' : nat) (D : ndarray float) (movie_id top_n : Z) :
  h !! l = Some (FloatMatrix D) →
  h' !! l' = Some (FloatMatrix D) →
  match top_cosine_similarity_heap np_dot_vm np_einsum_rows np_argsort
          (Owner l) movie_id top_n h with
  | Some (r1, h1) =>
      (∀ a b, h !! a = Some b → h1 !! a = Some b) ∧
      ∃ ids,
        read_ints r1 h1 = Some ids ∧
        (∃ r2 h2,
           top_cosine_similarity_heap np_dot_vm np_einsum_rows np_argsort
             (Owner l) movie_id top_n h1 = Some (r2, h2) ∧
           read_ints r2 h2 = Some ids ∧
           read_ints r1 h2 = Some ids) ∧
        (∃ r' h1',
           top_cosine_similarity_heap np_dot_vm np_einsum_rows np_argsort
             (Owner l') movie_id top_n h' = Some (r', h1') ∧
           read_ints r' h1' = Some ids)
  | None =>
      top_cosine_similarity_heap np_dot_vm np_einsum_rows np_argsort
        (Owner l') movie_id top_n h' = None
  end.
Proof.
  intros Hl Hl'.
  rewrite (top_cosine_similarity_heap_eval _ _ _ h l D movie_id top_n Hl).
  rewrite (top_cosine_similarity_heap_eval _ _ _ h' l' D movie_id top_n Hl').
  destruct (py_index (nrows D) (movie_id - 1)) as [i|] eqn:Hi; simpl; [|done].
  destruct (cells D !! i) as [row|] eqn:Hrow; simpl; [|done].
  destruct (py_index (length (fsqrt <$> np_einsum_rows D)) (movie_id - 1))
    as [i'|] eqn:Hi'; simpl; [|done].
  destruct ((fsqrt <$> np_einsum_rows D) !! i') as [mi|] eqn:Hmi; simpl; [|done].
  set (new := allocated np_dot_vm np_einsum_rows np_argsort D row mi).
  assert (length new = 8%nat) as Hnew by reflexivity.
  split; [intros a b Hb; by apply lookup_app_l_Some|].
  pose proof (lookup_app_l_Some h new l _ Hl) as Hl1.
  rewrite (top_cosine_similarity_heap_eval _ _ _ (h ++ new) l D movie_id top_n Hl1).
  rewrite Hi. simpl. rewrite Hrow. simpl. rewrite Hi'. simpl. rewrite Hmi. simpl.
  fold new. eexists. split; [|split].
  - unfold read_ints. rewrite lookup_allocated. reflexivity.
  - eexists _, _. split; [reflexivity|]. split.
    + unfold read_ints. rewrite lookup_allocated. reflexivity.
    + unfold read_ints. rewrite lookup_app_l by (rewrite length_app; lia).
      rewrite lookup_allocated. reflexivity.
  - eexists _, _. split; [reflexivity|].
    unfold read_ints. rewrite lookup_allocated. reflexivity.
Qed.

Lemma top_cosine_similarity_deterministic_witness :
  match top_cosine_similarity_heap (dt := float64)
          (dot_vm (dt := float64)) (einsum_rows (dt := float64)) argsort
          (Owner 0) 1 2 [FloatMatrix zero_row_example] with
  | Some (r1, h1) =>
      (∀ a b, [FloatMatrix zero_row_example] !! a = Some b → h1 !! a = Some b) ∧
      ∃ ids,
        read_ints r1 h1 = Some ids ∧
        (∃ r2 h2,
           top_cosine_similarity_heap (dt := float64)
             (dot_vm (dt := float64)) (einsum_rows (dt := float64)) argsort
             (Owner 0) 1 2 h1 = Some (r2, h2) ∧
           read_ints r2 h2 = Some ids ∧
           read_ints r1 h2 = Some ids) ∧
        (∃ r' h1',
           top_cosine_similarity_heap (dt := float64)
             (dot_vm (dt := float64)) (einsum_rows (dt := float64)) argsort
             (Owner 1) 1 2 [IntVector [7]; FloatMatrix zero_row_example]
             = Some (r', h1') ∧
           read_ints r' h1' = Some ids)
  | None =>
      top_cosine_similarity_heap (dt := float64)
        (dot_vm (dt := float64)) (einsum_rows (dt := float64)) argsort
        (Owner 1) 1 2 [IntVector [7]; FloatMatrix zero_row_example] = None
  end.
Proof.
  apply (top_cosine_similarity_deterministic (dt := float64)
           (dot_vm (dt := float64)) (einsum_rows (dt := float64)) argsort
           [FloatMatrix zero_row_example] [IntVector [7]; FloatMatrix zero_row_example]
           0 1 zero_row_example 1 2); reflexivity.
Defined.

(** ** The three descriptions of the ranker agree *)

Lemma transpose_transpose {A} (a : ndarray A) :
  wf_array a → transpose (transpose a) = a.
Proof.
  intros [Hlen Hrows]. destruct (wf_transpose a (conj Hlen Hrows)) as [Htl Htrows].
  destruct a as [n m rows]. unfold transpose in *. simpl in *. f_equal.
  apply (list_eq_same_length _ _ n); [done|by apply length_columns_of|].
  intros i col row Hi Hcol Hrow.
  destruct (columns_of_lookup n (columns_of m rows) i Htrows Hi)
    as (col' & Hcol' & Hcl & Hlk).
  assert (col' = col) as -> by congruence.
  rewrite Htl in Hcl.
  assert (length row = m) as Hrl.
  { rewrite Forall_forall in Hrows. apply Hrows. by eapply list_elem_of_lookup_2. }
  apply (list_eq_same_length _ _ m); [done..|].
  intros j x y Hj Hx Hy.
  destruct (columns_of_lookup m rows j Hrows Hj) as (cj & Hcj & _ & Hcjl).
  rewrite (Hlk j cj Hcj), (Hcjl i row Hrow) in Hx. congruence.
Qed.

(** With the routines of the first model, the ranker over numpy's routines
    is the ranker of the first model. *)
Lemma top_cosine_similarity_with_first_model `{dt : dtype}
    (data : ndarray float) (movie_id top_n : Z) :
  wf_array data →
  top_cosine_similarity_with dot_vm einsum_rows argsort data movie_id top_n
  = top_cosine_similarity data movie_id top_n.
Proof.
  intros Hwf.
  unfold top_cosine_similarity_with, top_cosine_similarity, similarity_with,
    similarity, sort_indices, dot_vm, einsum_rows, magnitudes.
  rewrite (transpose_transpose data Hwf), <- !list_fmap_compose.
  destruct (py_index (nrows data) (movie_id - 1)) as [i|]; simpl; [|done].
  destruct (cells data !! i) as [row|]; simpl; [|done].
  change (fsqrt ∘ sum_squares) with (λ r : list float, fsqrt (sum_squares r)).
  destruct (((λ r : list float, fsqrt (sum_squares r)) <$> cells data) !! i)
    as [mi|]; simpl; [|done].
  by rewrite <- list_fmap_compose.
Qed.

(** The list a call on the heap returns is the list the ranker over
    numpy's routines returns for the matrix the heap holds. *)
Lemma top_cosine_similarity_heap_contents `{dt : dtype}
    (np_dot_vm : list float → ndarray float → list float)
    (np_einsum_rows : ndarray float → list float)
    (np_argsort : list float → list nat)
    (h : heap) (l : nat) (D : ndarray float) (movie_id top_n : Z) :
  h !! l = Some (FloatMatrix D) →
  length (np_einsum_rows D) = nrows D →
  (top_cosine_similarity_heap np_dot_vm np_einsum_rows np_argsort
     (Owner l) movie_id top_n h ≫= λ '(r, h'), read_ints r h')
  = top_cosine_similarity_with np_dot_vm np_einsum_rows np_argsort D movie_id top_n.
Proof.
  intros Hl Hlen.
  rewrite (top_cosine_similarity_heap_eval _ _ _ h l D movie_id top_n Hl).
  unfold top_cosine_similarity_with, similarity_with.
  rewrite length_fmap, Hlen.
  destruct (py_index (nrows D) (movie_id - 1)) as [i|]; simpl; [|done].
  destruct (cells D !! i) as [row|]; simpl; [|done].
  destruct ((fsqrt <$> np_einsum_rows D) !! i) as [mi|]; simpl; [|done].
  by rewrite lookup_allocated.
Qed.

(** ** Demeaning *)

Section DemeanFacts.
Context {dt : dtype}.

Lemma length_column_means (ratings : ndarray float) :
  wf_array ratings → length (column_means ratings) = ncols ratings.
Proof.
  intros [_ Hrows]. unfold column_means. rewrite length_fmap. simpl.
  by apply length_columns_of.
Qed.

Lemma wf_demean_ratings (ratings : ndarray float) :
  wf_array ratings → wf_array (demean_ratings ratings).
Proof.
  intros Hwf. pose proof (length_column_means _ Hwf) as Hm.
  destruct Hwf as [Hlen Hrows]. split; simpl.
  - by rewrite !length_fmap.
  - rewrite <- list_fmap_compose. apply Forall_fmap.
    eapply Forall_impl; [exact Hrows|]. intros row Hrow. simpl.
    rewrite length_fmap, length_zip_with, Hm, Hrow. lia.
Qed.

End DemeanFacts.

(** ** Magnitudes: when sums, means and differences stay finite *)

(** *** Powers of two *)

Lemma pow2_pos (n : Z) : 0 ≤ n → 0 < 2 ^ n.
Proof. intros. by apply Z.pow_pos_nonneg. Qed.

Lemma pow2_split (a c : Z) : 0 ≤ c ≤ a → 2 ^ a = 2 ^ (a - c) * 2 ^ c.
Proof. intros. rewrite <- Z.pow_add_r by lia. f_equal. lia. Qed.

(** *** Binary digits *)

Lemma digits2_pos_bounds (p : positive) :
  2 ^ (Z.pos (digits2_pos p) - 1) ≤ Z.pos p < 2 ^ Z.pos (digits2_pos p).
Proof.
  induction p as [p IH|p IH|]; simpl digits2_pos.
  - rewrite Pos2Z.inj_succ.
    replace (Z.succ (Z.pos (digits2_pos p)) - 1) with (Z.succ (Z.pos (digits2_pos p) - 1)) by lia.
    rewrite !Z.pow_succ_r by lia. lia.
  - rewrite Pos2Z.inj_succ.
    replace (Z.succ (Z.pos (digits2_pos p)) - 1) with (Z.succ (Z.pos (digits2_pos p) - 1)) by lia.
    rewrite !Z.pow_succ_r by lia. lia.
  - simpl. lia.
Qed.

Lemma Zdigits2_nonneg (m : Z) : 0 ≤ Zdigits2 m.
Proof. destruct m; simpl; lia. Qed.

Lemma Zdigits2_pos (m : Z) : 0 < m → 0 < Zdigits2 m.
Proof. destruct m; simpl; lia. Qed.

Lemma Zdigits2_bounds (m : Z) :
  0 < m → 2 ^ (Zdigits2 m - 1) ≤ m < 2 ^ Zdigits2 m.
Proof. destruct m as [|p|p]; try lia. intros _. apply digits2_pos_bounds. Qed.

(** [m < 2^k] bounds the number of digits by [k]. *)
Lemma Zdigits2_le (m k : Z) : 0 ≤ m → 0 ≤ k → m < 2 ^ k → Zdigits2 m ≤ k.
Proof.
  intros Hm Hk Hlt. destruct (decide (m = 0)) as [->|Hne]; [done|].
  destruct (Zdigits2_bounds m ltac:(lia)) as [Hlo _].
  destruct (decide (Zdigits2 m ≤ k)) as [|Hgt]; [done|]. exfalso.
  assert (2 ^ k ≤ 2 ^ (Zdigits2 m - 1)) by (apply Z.pow_le_mono_r; lia).
  lia.
Qed.

(** [2^k <= m] makes the number of digits exceed [k]. *)
Lemma Zdigits2_gt (m k : Z) : 0 ≤ k → 2 ^ k ≤ m → k < Zdigits2 m.
Proof.
  intros Hk Hle. pose proof (pow2_pos k Hk).
  destruct (Zdigits2_bounds m ltac:(lia)) as [_ Hhi].
  destruct (decide (k < Zdigits2 m)) as [|Hge]; [done|]. exfalso.
  assert (2 ^ Zdigits2 m ≤ 2 ^ k).
  { apply Z.pow_le_mono_r; [lia|]. lia. }
  lia.
Qed.

(** *** Shifting right *)

Lemma loc_of_shr_record_exact (r : shr_record) :
  inexact r = false → loc_of_shr_record r = loc_Exact.
Proof. by destruct r as [m [] []]. Qed.

Lemma shr_1_spec (r : shr_record) :
  0 ≤ shr_m r →
  shr_m (shr_1 r) = shr_m r / 2 ∧
  (inexact (shr_1 r) = true → inexact r = true ∨ shr_m r mod 2 ≠ 0).
Proof.
  destruct r as [m r s]. simpl. intros Hm.
  destruct m as [|[p|p|]|p]; try lia; unfold inexact; simpl.
  - split; [done|]. intros H. by left.
  - split.
    + rewrite Pos2Z.inj_xI. apply Z.div_unique with 1; lia.
    + intros _. right. rewrite Pos2Z.inj_xI.
      rewrite (Z.mul_comm 2), Z.add_comm, Z.mod_add by lia. done.
  - split.
    + rewrite Pos2Z.inj_xO. apply Z.div_unique with 0; lia.
    + intros H. by left.
  - split; [done|]. intros _. by right.
Qed.

Lemma iter_pos_nat {A} (f : A → A) (p : positive) (x : A) :
  SpecFloat.iter_pos f p x = Nat.iter (Pos.to_nat p) f x.
Proof.
  revert x. induction p as [p IH|p IH|]; intros x; cbn [SpecFloat.iter_pos].
  - rewrite !IH, Pos2Nat.inj_xI, Nat.iter_succ_r.
    replace (2 * Pos.to_nat p)%nat with (Pos.to_nat p + Pos.to_nat p)%nat by lia.
    by rewrite Nat.iter_add.
  - rewrite !IH, Pos2Nat.inj_xO.
    replace (2 * Pos.to_nat p)%nat with (Pos.to_nat p + Pos.to_nat p)%nat by lia.
    by rewrite Nat.iter_add.
  - done.
Qed.

Lemma iter_shr_1_spec (k : nat) (r : shr_record) :
  0 ≤ shr_m r →
  0 ≤ shr_m (Nat.iter k shr_1 r) ∧
  shr_m (Nat.iter k shr_1 r) = shr_m r / 2 ^ Z.of_nat k ∧
  (inexact (Nat.iter k shr_1 r) = true →
   inexact r = true ∨ shr_m r mod 2 ^ Z.of_nat k ≠ 0).
Proof.
  intros Hm. induction k as [|k (IH0 & IHm & IHi)].
  - simpl. split; [done|]. split; [by rewrite Z.div_1_r|]. auto.
  - simpl Nat.iter. destruct (shr_1_spec _ IH0) as [Hm1 Hi1].
    rewrite Nat2Z.inj_succ, Z.pow_succ_r by lia.
    pose proof (pow2_pos (Z.of_nat k) ltac:(lia)) as Hp.
    split; [rewrite Hm1; apply Z.div_pos; lia|].
    split.
    + rewrite Hm1, IHm, Z.div_div by lia. f_equal. lia.
    + intros Hi. destruct (Hi1 Hi) as [Hi'|Hodd].
      * destruct (IHi Hi') as [?|Hmod]; [by left|]. right.
        intros Hz. apply Hmod.
        apply Z.mod_divide in Hz; [|lia]. apply Z.mod_divide; [lia|].
        destruct Hz as [q Hq]. exists (2 * q). lia.
      * right. intros Hz. apply Hodd. rewrite IHm.
        apply Z.mod_divide in Hz; [|lia]. destruct Hz as [q Hq].
        rewrite Hq. replace (q * (2 * 2 ^ Z.of_nat k)) with (q * 2 * 2 ^ Z.of_nat k) by lia.
        rewrite Z.div_mul by lia. rewrite Z.mul_comm. by rewrite Z.mul_comm, Z.mod_mul.
Qed.

(** [shr] by [n] digits: the mantissa is divided by [2^n], and the result is
    marked inexact only if the input was or a nonzero digit was shifted
    out. *)
Lemma shr_spec (m : Z) (l : location) (e n : Z) :
  0 ≤ m →
  let '(r, e') := shr (shr_record_of_loc m l) e n in
  0 ≤ shr_m r ∧
  shr_m r = m / 2 ^ Z.max n 0 ∧ e' = e + Z.max n 0 ∧
  (loc_of_shr_record r ≠ loc_Exact → l ≠ loc_Exact ∨ m mod 2 ^ Z.max n 0 ≠ 0).
Proof.
  intros Hm.
  assert (shr_m (shr_record_of_loc m l) = m) as Hrm by (by destruct l as [|[]]).
  assert (inexact (shr_record_of_loc m l) = true → l ≠ loc_Exact) as Hin.
  { by destruct l as [|[]]. }
  unfold shr. destruct n as [|p|p]; simpl Z.max.
  - rewrite Z.div_1_r, Z.add_0_r, Hrm. repeat split; try done.
    intros Hne. left. by destruct l as [|[]].
  - rewrite iter_pos_nat.
    destruct (iter_shr_1_spec (Pos.to_nat p) (shr_record_of_loc m l))
      as (H0 & Hmm & Hi); [by rewrite Hrm|].
    rewrite positive_nat_Z, Hrm in Hmm, Hi.
    repeat split; try done.
    intros Hne.
    destruct (inexact (Nat.iter (Pos.to_nat p) shr_1 (shr_record_of_loc m l))) eqn:Hx.
    + destruct (Hi eq_refl) as [H|H]; [left; by apply Hin|by right].
    + by rewrite loc_of_shr_record_exact in Hne.
  - rewrite Z.div_1_r, Z.add_0_r, Hrm. repeat split; try done.
    intros Hne. left. by destruct l as [|[]].
Qed.

Lemma round_nearest_even_bounds (m : Z) (l : location) :
  m ≤ round_nearest_even m l ≤ m + 1 ∧
  (l = loc_Exact → round_nearest_even m l = m).
Proof.
  destruct l as [|[]]; simpl; try (split; [lia|done]).
  destruct (Z.even m); (split; [lia|done]).
Qed.

(** *** Magnitude bounds *)

Lemma scaled_le (m K e E c : Z) :
  c ≤ e → c ≤ E →
  m * 2 ^ (e - Z.min e E) ≤ K * 2 ^ (E - Z.min e E) ↔
  m * 2 ^ (e - c) ≤ K * 2 ^ (E - c).
Proof.
  intros He HE.
  rewrite (pow2_split (e - c) (Z.min e E - c)), (pow2_split (E - c) (Z.min e E - c)) by lia.
  replace (e - c - (Z.min e E - c)) with (e - Z.min e E) by lia.
  replace (E - c - (Z.min e E - c)) with (E - Z.min e E) by lia.
  rewrite !Z.mul_assoc.
  apply Z.mul_le_mono_pos_r, pow2_pos. lia.
Qed.

Lemma within_finite (K E c : Z) (s : bool) (m : positive) (e : Z) :
  c ≤ e → c ≤ E →
  within K E (S754_finite s m e) = true ↔ Z.pos m * 2 ^ (e - c) ≤ K * 2 ^ (E - c).
Proof. intros He HE. simpl. rewrite Z.leb_le. by apply scaled_le. Qed.

Section Rounding.
Context {dt : dtype}.
Hypothesis Hprec : 0 < prec.

(** Rounding does not cross a bound [K * 2^E] that is itself a number of
    the format: if the exact value is at most the bound, so is the rounded
    one, which is then finite. *)
Lemma binary_round_aux_within (sx : bool) (mx ex : Z) (lx : location) (K E c : Z) :
  0 ≤ mx →
  ex ≤ fexp prec emax (Zdigits2 mx + ex) →
  emin prec emax ≤ E → E ≤ emax - prec →
  0 ≤ K < 2 ^ prec →
  c ≤ ex → c ≤ E →
  (match lx with loc_Exact => mx | _ => mx + 1 end) * 2 ^ (ex - c) ≤ K * 2 ^ (E - c) →
  within K E (binary_round_aux prec emax sx mx ex lx) = true.
Proof.
  intros Hmx Hcanon HEmin HEmax HK Hcex HcE Hb.
  set (upper := match lx with loc_Exact => mx | _ => mx + 1 end) in Hb.
  assert (mx ≤ upper) as Hup by (unfold upper; destruct lx; lia).
  pose proof (pow2_pos (ex - c) ltac:(lia)) as Hpexc.
  pose proof (pow2_pos (E - c) ltac:(lia)) as HpEc.
  pose proof (Zdigits2_nonneg mx) as Hd0.
  pose proof (pow2_pos _ (Z.lt_le_incl _ _ Hprec)) as Hpprec.
  (* the canonical exponent of the value is at most [E] *)
  assert (fexp prec emax (Zdigits2 mx + ex) ≤ E) as He1.
  { destruct (decide (fexp prec emax (Zdigits2 mx + ex) ≤ E)) as [|Hgt]; [done|].
    exfalso. unfold fexp in Hgt, Hcanon.
    destruct (decide (mx = 0)) as [->|Hne]; [simpl in *; lia|].
    destruct (Zdigits2_bounds mx ltac:(lia)) as [Hlo _].
    pose proof (Zdigits2_pos mx ltac:(lia)) as Hdpos.
    assert (2 ^ (Zdigits2 mx - 1 + (ex - c)) < 2 ^ (prec + (E - c))) as Hlt.
    { rewrite (Z.pow_add_r 2 (Zdigits2 mx - 1) (ex - c)),
        (Z.pow_add_r 2 prec (E - c)) by lia.
      pose proof (pow2_pos (Zdigits2 mx - 1) ltac:(lia)). nia. }
    apply Z.pow_lt_mono_r_iff in Hlt; lia. }
  set (e1 := fexp prec emax (Zdigits2 mx + ex)) in *.
  assert (upper ≤ K * 2 ^ (E - ex)) as Hbex.
  { rewrite (pow2_split (E - c) (ex - c)) in Hb by lia.
    replace (E - c - (ex - c)) with (E - ex) in Hb by lia. nia. }
  set (n := e1 - ex).
  set (Q := K * 2 ^ (E - e1)).
  assert (K * 2 ^ (E - ex) = Q * 2 ^ n) as HQ.
  { unfold Q, n. rewrite (pow2_split (E - ex) (e1 - ex)) by lia.
    replace (E - ex - (e1 - ex)) with (E - e1) by lia. lia. }
  pose proof (pow2_pos n ltac:(lia)) as Hpn.
  pose proof (pow2_pos (E - e1) ltac:(lia)) as HpE1.
  unfold binary_round_aux, shr_fexp. fold e1. fold n.
  pose proof (shr_spec mx lx ex n Hmx) as Hshr.
  destruct (shr (shr_record_of_loc mx lx) ex n) as [r1 e1'].
  destruct Hshr as (Hr1 & Hm1 & -> & Hloc1).
  rewrite Z.max_l in Hm1, Hloc1 by lia. rewrite Z.max_l by lia.
  replace (ex + n) with e1 by (unfold n; lia).
  set (m2 := round_nearest_even (shr_m r1) (loc_of_shr_record r1)).
  assert (0 ≤ m2 ≤ Q) as Hm2.
  { destruct (round_nearest_even_bounds (shr_m r1) (loc_of_shr_record r1)) as [Hb2 Hex].
    fold m2 in Hb2, Hex. split; [lia|].
    assert (loc_of_shr_record r1 = loc_Exact ∨ loc_of_shr_record r1 ≠ loc_Exact)
      as [Hl|Hl] by (destruct (loc_of_shr_record r1); [by left|by right]).
    - rewrite (Hex Hl), Hm1. apply Z.div_le_upper_bound; lia.
    - assert (mx < 2 ^ n * Q) as Hlt.
      { destruct (Hloc1 Hl) as [Hlx|Hmod].
        - unfold upper in Hbex. destruct lx; [done|lia].
        - destruct (decide (mx = 2 ^ n * Q)) as [Heq|]; [|lia].
          exfalso. apply Hmod. rewrite Heq, Z.mul_comm. by apply Z.mod_mul; lia. }
      assert (shr_m r1 < Q); [|lia].
      rewrite Hm1. by apply Z.div_lt_upper_bound. }
  pose proof (shr_spec m2 loc_Exact e1 (fexp prec emax (Zdigits2 m2 + e1) - e1)
                ltac:(lia)) as Hshr2.
  destruct (shr (shr_record_of_loc m2 loc_Exact) e1
              (fexp prec emax (Zdigits2 m2 + e1) - e1)) as [r2 e2].
  destruct Hshr2 as (Hr2 & Hm3 & -> & _).
  set (k := Z.max (fexp prec emax (Zdigits2 m2 + e1) - e1) 0) in *.
  assert (0 ≤ k) as Hk0 by (unfold k; lia).
  assert (e1 + k ≤ E) as He2.
  { assert (Zdigits2 m2 ≤ prec + (E - e1)) as Hd2.
    { apply Zdigits2_le; [lia..|].
      rewrite (Z.pow_add_r 2 prec (E - e1)) by lia. unfold Q in Hm2. nia. }
    unfold k, fexp. lia. }
  pose proof (pow2_pos k Hk0) as Hpk.
  assert (shr_m r2 ≤ K * 2 ^ (E - (e1 + k))) as Hm3b.
  { rewrite Hm3. apply Z.div_le_upper_bound; [lia|].
    unfold Q in Hm2. rewrite (pow2_split (E - e1) k) in Hm2 by lia.
    replace (E - e1 - k) with (E - (e1 + k)) in Hm2 by lia. lia. }
  destruct (shr_m r2) as [|m3|m3]; [done| |lia].
  rewrite (proj2 (Z.leb_le _ _)) by lia.
  apply (within_finite K E (e1 + k)); [lia..|].
  by rewrite Z.sub_diag, Z.mul_1_r.
Qed.
End Rounding.

(** *** Shifting left *)

Lemma iter_xO (m d : positive) : Z.pos (Pos.iter xO m d) = Z.pos m * 2 ^ Z.pos d.
Proof.
  induction d as [|d IH] using Pos.peano_ind.
  - simpl. lia.
  - rewrite Pos.iter_succ, Pos2Z.inj_xO, IH, Pos2Z.inj_succ, Z.pow_succ_r by lia. lia.
Qed.

Lemma shl_align_spec (mx : positive) (ex ex' : Z) :
  (shl_align mx ex ex').2 = Z.min ex ex' ∧
  Z.pos (shl_align mx ex ex').1 = Z.pos mx * 2 ^ (ex - Z.min ex ex').
Proof.
  unfold shl_align. destruct (ex' - ex) as [|d|d] eqn:Hd; simpl.
  - rewrite Z.min_l by lia. rewrite Z.sub_diag. lia.
  - rewrite Z.min_l by lia. rewrite Z.sub_diag. lia.
  - rewrite Z.min_r by lia. split; [done|].
    rewrite iter_xO. f_equal. f_equal. lia.
Qed.

Lemma Zdigits2_shift (m d : Z) : 0 < m → 0 ≤ d → Zdigits2 (m * 2 ^ d) = Zdigits2 m + d.
Proof.
  intros Hm Hd. destruct (Zdigits2_bounds m Hm) as [Hlo Hhi].
  pose proof (Zdigits2_pos m Hm) as Hdp.
  pose proof (pow2_pos d Hd) as Hp.
  assert (Zdigits2 (m * 2 ^ d) ≤ Zdigits2 m + d).
  { apply Zdigits2_le; [lia..|]. rewrite (Z.pow_add_r 2 (Zdigits2 m) d) by lia. nia. }
  assert (Zdigits2 m + d - 1 < Zdigits2 (m * 2 ^ d)); [|lia].
  apply Zdigits2_gt; [lia|].
  replace (Zdigits2 m + d - 1) with (Zdigits2 m - 1 + d) by lia.
  rewrite (Z.pow_add_r 2 (Zdigits2 m - 1) d) by lia. nia.
Qed.

Lemma within_mono (K K' E : Z) (x : float) :
  K ≤ K' → within K E x = true → within K' E x = true.
Proof.
  intros HK. destruct x as [| | |s m e]; simpl; try done.
  rewrite !Z.leb_le. pose proof (pow2_pos (E - Z.min e E) ltac:(lia)). nia.
Qed.

Section Operations.
Context {dt : dtype}.
Hypothesis Hprec : 0 < prec.

Lemma binary_round_within (sx : bool) (mx : positive) (ex K E c : Z) :
  emin prec emax ≤ E → E ≤ emax - prec →
  0 ≤ K < 2 ^ prec →
  c ≤ ex → c ≤ E →
  Z.pos mx * 2 ^ (ex - c) ≤ K * 2 ^ (E - c) →
  within K E (binary_round prec emax sx mx ex) = true.
Proof.
  intros HEmin HEmax HK Hcex HcE Hb. unfold binary_round.
  set (f := fexp prec emax (Z.pos (digits2_pos mx) + ex)).
  destruct (shl_align_spec mx ex f) as [Hez Hmz].
  destruct (shl_align mx ex f) as [mz ez]. simpl in Hez, Hmz. subst ez.
  assert (Zdigits2 (Z.pos mz) + Z.min ex f = Z.pos (digits2_pos mx) + ex) as Hdig.
  { rewrite Hmz, Zdigits2_shift by lia. simpl. lia. }
  apply (binary_round_aux_within Hprec sx (Z.pos mz) (Z.min ex f) loc_Exact K E
           (Z.min c f)); try lia.
  - rewrite Hdig. fold f. lia.
  - rewrite Hmz. apply (scaled_le (Z.pos mx) K ex E c Hcex HcE) in Hb.
    apply (scaled_le (Z.pos mx) K ex E (Z.min c f)) in Hb; [|lia..].
    rewrite <- Z.mul_assoc, <- Z.pow_add_r by lia.
    by replace (ex - Z.min ex f + (Z.min ex f - Z.min c f)) with (ex - Z.min c f) by lia.
Qed.

Lemma binary_normalize_within (m e K E c : Z) :
  emin prec emax ≤ E → E ≤ emax - prec →
  0 ≤ K < 2 ^ prec →
  c ≤ e → c ≤ E →
  Z.abs m * 2 ^ (e - c) ≤ K * 2 ^ (E - c) →
  within K E (binary_normalize prec emax m e false) = true.
Proof.
  intros HEmin HEmax HK Hce HcE Hb.
  destruct m as [|p|p]; simpl; [done|by eapply binary_round_within..].
Qed.

Lemma cond_Zopp_abs (s : bool) (m : Z) : Z.abs (cond_Zopp s m) = Z.abs m.
Proof. destruct s; simpl; lia. Qed.

(** Adding or subtracting two numbers within [K1 * 2^E] and [K2 * 2^E]
    gives a number within [(K1 + K2) * 2^E]: no overflow as long as
    [K1 + K2 < 2^prec] and [2^E] is the unit of a finite number. *)
Lemma aligned_sum_within (op : Z → Z → Z) (sx sy : bool) (mx my : positive)
    (ex ey K1 K2 E : Z) :
  (∀ a b, Z.abs (op a b) ≤ Z.abs a + Z.abs b) →
  emin prec emax ≤ E → E ≤ emax - prec →
  0 ≤ K1 → 0 ≤ K2 → K1 + K2 < 2 ^ prec →
  within K1 E (S754_finite sx mx ex) = true →
  within K2 E (S754_finite sy my ey) = true →
  within (K1 + K2) E
    (binary_normalize prec emax
       (op (cond_Zopp sx (Z.pos (shl_align mx ex (Z.min ex ey)).1))
           (cond_Zopp sy (Z.pos (shl_align my ey (Z.min ex ey)).1)))
       (Z.min ex ey) false) = true.
Proof.
  intros Hop HEmin HEmax HK1 HK2 HK Hx Hy.
  set (c := Z.min (Z.min ex ey) E).
  apply (within_finite K1 E c) in Hx; [|lia..].
  apply (within_finite K2 E c) in Hy; [|lia..].
  destruct (shl_align_spec mx ex (Z.min ex ey)) as [_ Hmx].
  destruct (shl_align_spec my ey (Z.min ex ey)) as [_ Hmy].
  replace (Z.min ex (Z.min ex ey)) with (Z.min ex ey) in Hmx by lia.
  replace (Z.min ey (Z.min ex ey)) with (Z.min ex ey) in Hmy by lia.
  rewrite Hmx, Hmy.
  apply (binary_normalize_within _ _ _ _ c); try lia.
  pose proof (Hop (cond_Zopp sx (Z.pos mx * 2 ^ (ex - Z.min ex ey)))
                  (cond_Zopp sy (Z.pos my * 2 ^ (ey - Z.min ex ey)))) as Habs.
  rewrite !cond_Zopp_abs in Habs.
  pose proof (pow2_pos (Z.min ex ey - c) ltac:(lia)) as Hp.
  rewrite (pow2_split (ex - c) (Z.min ex ey - c)) in Hx by lia.
  rewrite (pow2_split (ey - c) (Z.min ex ey - c)) in Hy by lia.
  replace (ex - c - (Z.min ex ey - c)) with (ex - Z.min ex ey) in Hx by lia.
  replace (ey - c - (Z.min ex ey - c)) with (ey - Z.min ex ey) in Hy by lia.
  pose proof (pow2_pos (ex - Z.min ex ey) ltac:(lia)).
  pose proof (pow2_pos (ey - Z.min ex ey) ltac:(lia)).
  rewrite (Z.abs_eq (Z.pos mx * _)), (Z.abs_eq (Z.pos my * _)) in Habs by lia.
  apply (Z.mul_le_mono_nonneg_r _ _ (2 ^ (Z.min ex ey - c))) in Habs; lia.
Qed.

Lemma SFadd_within (K1 K2 E : Z) (x y : float) :
  emin prec emax ≤ E → E ≤ emax - prec →
  0 ≤ K1 → 0 ≤ K2 → K1 + K2 < 2 ^ prec →
  within K1 E x = true → within K2 E y = true →
  within (K1 + K2) E (SFadd prec emax x y) = true.
Proof.
  intros HEmin HEmax HK1 HK2 HK Hx Hy.
  destruct x as [sx| | |sx mx ex], y as [sy| | |sy my ey]; try done.
  - by destruct sx, sy.
  - simpl SFadd. eapply within_mono; [|exact Hy]. lia.
  - simpl SFadd. eapply within_mono; [|exact Hx]. lia.
  - unfold SFadd. apply (aligned_sum_within Z.add); try done. intros a b. lia.
Qed.

Lemma SFsub_within (K1 K2 E : Z) (x y : float) :
  emin prec emax ≤ E → E ≤ emax - prec →
  0 ≤ K1 → 0 ≤ K2 → K1 + K2 < 2 ^ prec →
  within K1 E x = true → within K2 E y = true →
  within (K1 + K2) E (SFsub prec emax x y) = true.
Proof.
  intros HEmin HEmax HK1 HK2 HK Hx Hy.
  destruct x as [sx| | |sx mx ex], y as [sy| | |sy my ey]; try done.
  - by destruct sx, sy.
  - simpl SFsub. eapply (within_mono K2); [lia|exact Hy].
  - simpl SFsub. eapply within_mono; [|exact Hx]. lia.
  - unfold SFsub. apply (aligned_sum_within Z.sub); try done. intros a b. lia.
Qed.
End Operations.

(** *** Division by a number that is at least one *)

Lemma new_location_inexact (n r : Z) : new_location n r ≠ loc_Exact → r ≠ 0.
Proof.
  intros Hne ->. apply Hne.
  unfold new_location, new_location_even, new_location_odd.
  by destruct (Z.even n).
Qed.

Section Division.
Context {dt : dtype}.
Hypothesis Hprec : 0 < prec.

(** The sum of digits and exponent of a number within [K * 2^E]. *)
Lemma within_digits (K E : Z) (s : bool) (m : positive) (e : Z) :
  0 ≤ K < 2 ^ prec →
  within K E (S754_finite s m e) = true →
  Zdigits2 (Z.pos m) + e ≤ prec + E.
Proof.
  intros HK Hx. apply (within_finite K E (Z.min e E)) in Hx; [|lia..].
  destruct (Zdigits2_bounds (Z.pos m) ltac:(lia)) as [Hlo _].
  pose proof (Zdigits2_pos (Z.pos m) ltac:(lia)) as Hd.
  pose proof (pow2_pos (e - Z.min e E) ltac:(lia)).
  pose proof (pow2_pos (E - Z.min e E) ltac:(lia)).
  pose proof (pow2_pos _ (Z.lt_le_incl _ _ Hprec)) as Hpprec.
  assert (2 ^ (Zdigits2 (Z.pos m) - 1 + (e - Z.min e E)) < 2 ^ (prec + (E - Z.min e E)))
    as Hlt.
  { rewrite (Z.pow_add_r 2 (Zdigits2 (Z.pos m) - 1) (e - Z.min e E)),
      (Z.pow_add_r 2 prec (E - Z.min e E)) by lia.
    nia. }
  apply Z.pow_lt_mono_r_iff in Hlt; lia.
Qed.

Lemma SFdiv_within (K E : Z) (x : float) (sy : bool) (my : positive) (ey : Z) :
  emin prec emax ≤ E → E ≤ emax - prec →
  0 ≤ K < 2 ^ prec →
  within K E x = true →
  ey ≤ 0 → 2 ^ (- ey) ≤ Z.pos my →
  within K E (SFdiv prec emax x (S754_finite sy my ey)) = true.
Proof.
  intros HEmin HEmax HK Hx Hey Hmy.
  destruct x as [sx| | |sx mx ex]; try done.
  unfold SFdiv, SFdiv_core_binary.
  set (d1 := Zdigits2 (Z.pos mx)). set (d2 := Zdigits2 (Z.pos my)).
  set (X := d1 + ex - (d2 + ey)).
  set (e' := Z.min (fexp prec emax X) (ex - ey)).
  set (s := ex - ey - e').
  assert (0 ≤ s) as Hs by (unfold s, e'; lia).
  set (m' := match s with
             | 0 => Z.pos mx
             | Z.pos _ => Z.shiftl (Z.pos mx) s
             | Z.neg _ => 0
             end).
  assert (m' = Z.pos mx * 2 ^ s) as Hm'.
  { unfold m'. destruct s as [|p|p] eqn:Hsp; [simpl; lia| |lia].
    by rewrite Z.shiftl_mul_pow2. }
  clearbody m'.
  pose proof (Z_div_mod m' (Z.pos my) ltac:(lia)) as Hdiv.
  destruct (Z.div_eucl m' (Z.pos my)) as [q r]. destruct Hdiv as [Hqr Hr].
  pose proof (pow2_pos s Hs) as Hps.
  assert (0 ≤ q) as Hq by nia.
  assert (1 ≤ d2 + ey) as Hd2.
  { pose proof (Zdigits2_gt (Z.pos my) (- ey) ltac:(lia) Hmy). unfold d2. lia. }
  pose proof (within_digits K E sx mx ex HK Hx) as Hd1. fold d1 in Hd1.
  assert (e' ≤ E) as He' by (unfold e', fexp, X; lia).
  destruct (Zdigits2_bounds (Z.pos mx) ltac:(lia)) as [Hmxlo _]. fold d1 in Hmxlo.
  destruct (Zdigits2_bounds (Z.pos my) ltac:(lia)) as [_ Hmyhi]. fold d2 in Hmyhi.
  pose proof (Zdigits2_pos (Z.pos mx) ltac:(lia)) as Hd1p. fold d1 in Hd1p.
  pose proof (Zdigits2_pos (Z.pos my) ltac:(lia)) as Hd2p. fold d2 in Hd2p.
  pose proof (pow2_pos (E - e') ltac:(lia)) as HpE.
  pose proof (pow2_pos (- ey) ltac:(lia)) as Hpey.
  apply (binary_round_aux_within Hprec _ q e' _ K E e'); try lia.
  - (* the quotient has enough digits *)
    destruct (decide (e' ≤ emin prec emax)) as [|Hgt]; [unfold fexp; lia|].
    assert (e' ≤ X - prec) as HX by (unfold e', fexp in *; lia).
    assert (0 ≤ d1 + s - d2 - 1) as Ht by (unfold s, X in *; lia).
    assert (2 ^ (d1 + s - d2 - 1) ≤ q) as Hqlo.
    { pose proof (pow2_pos _ Ht) as Hpt.
      assert (2 ^ (d1 - 1) * 2 ^ s = 2 ^ (d1 + s - d2 - 1) * 2 ^ d2) as Hsplit.
      { rewrite <- !Z.pow_add_r by lia. f_equal. lia. }
      nia. }
    pose proof (Zdigits2_gt q _ Ht Hqlo) as Hdq.
    unfold fexp. unfold s, X in *. lia.
  - (* the quotient is below the bound *)
    rewrite Z.sub_diag, Z.mul_1_r.
    apply (within_finite K E (e' + ey)) in Hx; [|unfold e'; lia|lia].
    replace (ex - (e' + ey)) with s in Hx by (unfold s; lia).
    replace (E - (e' + ey)) with (E - e' + - ey) in Hx by lia.
    rewrite (Z.pow_add_r 2 (E - e') (- ey)) in Hx by lia.
    assert (m' ≤ K * 2 ^ (E - e') * Z.pos my) as Hmb by nia.
    pose proof (new_location_inexact (Z.pos my) r) as Hin.
    destruct (new_location (Z.pos my) r); [nia|].
    assert (r ≠ 0) by (by apply Hin). nia.
Qed.
End Division.

(** *** Small counts are numbers of the format *)

Section Counting.
Context {dt : dtype}.
Hypothesis Hprec : 1 < prec.
Hypothesis Hemax : prec ≤ emax.

Lemma binary_round_aux_canonical (sx : bool) (m : positive) (e : Z) :
  fexp prec emax (Z.pos (digits2_pos m) + e) = e → e ≤ emax - prec →
  binary_round_aux prec emax sx (Z.pos m) e loc_Exact = S754_finite sx m e.
Proof.
  intros Hc He. unfold binary_round_aux, shr_fexp. simpl Zdigits2.
  rewrite Hc, Z.sub_diag. simpl. rewrite Hc, Z.sub_diag. simpl.
  by rewrite (proj2 (Z.leb_le _ _)).
Qed.

(** A positive integer below [2^prec] is rounded to itself. *)
Lemma binary_round_integer (sx : bool) (p : positive) :
  Z.pos p < 2 ^ prec →
  ∃ m e, binary_round prec emax sx p 0 = S754_finite sx m e ∧
         e ≤ 0 ∧ Z.pos m = Z.pos p * 2 ^ (- e).
Proof.
  intros Hp. unfold binary_round.
  set (f := fexp prec emax (Z.pos (digits2_pos p) + 0)).
  assert (Zdigits2 (Z.pos p) ≤ prec) as Hd by (apply Zdigits2_le; lia).
  simpl in Hd.
  assert (f ≤ 0) as Hf by (unfold f, fexp, emin; lia).
  destruct (shl_align_spec p 0 f) as [Hez Hmz].
  destruct (shl_align p 0 f) as [mz ez]. simpl in Hez, Hmz. subst ez.
  rewrite Z.min_r in Hmz by lia. rewrite Z.min_r by lia.
  exists mz, f. split; [|split; [done|by rewrite Hmz]].
  apply binary_round_aux_canonical; [|lia].
  change (Z.pos (digits2_pos mz)) with (Zdigits2 (Z.pos mz)).
  rewrite Hmz, Zdigits2_shift by lia. simpl Zdigits2.
  unfold f. f_equal. lia.
Qed.
End Counting.

(** *** Sums, means and differences of bounded ratings *)

Section BoundedRatings.
Context {dt : dtype}.
Hypothesis Hprec : 1 < prec.
Hypothesis Hemax : prec ≤ emax.

Lemma foldl_fadd_sums_to (l0 l : list float) (acc : float) :
  sums_to l0 acc → sums_to (l0 ++ l) (foldl fadd acc l).
Proof.
  revert l0 acc. induction l as [|y l IH]; intros l0 acc Hacc; simpl.
  - by rewrite app_nil_r.
  - replace (l0 ++ y :: l) with ((l0 ++ [y]) ++ l) by (by rewrite <- app_assoc).
    apply IH. eapply sums_to_app; [done|exact Hacc|constructor].
Qed.

(** Adding from left to right is one way of adding up. *)
Lemma add_reduce_sums_to (l : list float) : sums_to l (add_reduce l).
Proof.
  destruct l as [|x t]; simpl; [constructor|].
  apply (foldl_fadd_sums_to [x] t x). constructor.
Qed.

(** However [n] numbers of magnitude at most [2^E] are added up, the sum
    has magnitude at most [n * 2^E]. *)
Lemma sums_to_within (E : Z) (l : list float) (s : float) :
  emin prec emax ≤ E → E ≤ emax - prec →
  sums_to l s →
  Forall (λ x, within 1 E x = true) l →
  Z.of_nat (length l) < 2 ^ prec →
  within (Z.of_nat (length l)) E s = true.
Proof.
  intros HEmin HEmax Hsum. assert (0 < prec) as Hprec0 by lia.
  induction Hsum as [|x|l l1 l2 a b Hperm Ha IHa Hb IHb]; intros Hl Hlen.
  - done.
  - apply Forall_cons in Hl as [Hl _]. exact Hl.
  - rewrite Hperm in Hl, Hlen. rewrite Hperm.
    apply Forall_app in Hl as [Hl1 Hl2]. rewrite length_app, Nat2Z.inj_add in *.
    apply (SFadd_within Hprec0); try lia; [apply IHa|apply IHb]; try done; lia.
Qed.

Lemma of_nat_at_least_one (n : nat) :
  (0 < n)%nat → Z.of_nat n < 2 ^ prec →
  ∃ m e, of_nat n = S754_finite false m e ∧ e ≤ 0 ∧ 2 ^ (- e) ≤ Z.pos m.
Proof.
  intros Hn Hlt. unfold of_nat, of_Z, fmake.
  destruct (Z.of_nat n) as [|p|p] eqn:Hp; try lia. simpl.
  destruct (binary_round_integer Hprec Hemax false p Hlt) as (m & e & -> & He & Hm).
  exists m, e. split; [done|]. split; [done|].
  pose proof (pow2_pos (- e) ltac:(lia)). nia.
Qed.

Lemma within_not_nan (K E : Z) (x : float) : within K E x = true → is_nan x = false.
Proof. by destruct x. Qed.

Lemma within_finite_number (K E : Z) (x : float) :
  within K E x = true → is_finite x = true.
Proof. by destruct x. Qed.

Variable np_add_reduce : list float → float.
Hypothesis np_add_reduce_sums : ∀ l, sums_to l (np_add_reduce l).

(** The mean of a column of at most [2^prec - 1] ratings, each missing or
    of magnitude at most [2^E], that holds at least one rating: its
    magnitude is at most [rows * 2^E]. *)
Lemma nanmean_with_within (E : Z) (col : list float) (x : float) :
  emin prec emax ≤ E → E ≤ emax - prec →
  Forall (λ v, is_nan v || within 1 E v = true) col →
  Z.of_nat (length col) < 2 ^ prec →
  x ∈ col → is_nan x = false →
  within (Z.of_nat (length col)) E (nanmean_with np_add_reduce col) = true.
Proof.
  intros HEmin HEmax Hcol Hlen Hx Hxn. unfold nanmean_with.
  assert (0 < prec) as Hprec0 by lia.
  destruct (of_nat_at_least_one (length (filter (λ v, is_nan v = false) col)))
    as (m & e & -> & He & Hm).
  { assert (x ∈ filter (λ v, is_nan v = false) col) as Hin
      by (by apply list_elem_of_filter).
    destruct (filter _ col); [by apply elem_of_nil in Hin|simpl; lia]. }
  { pose proof (length_filter (λ v, is_nan v = false) col). lia. }
  apply (SFdiv_within Hprec0); try done; [lia|].
  rewrite <- (length_fmap nan_to_zero col).
  apply sums_to_within; try done.
  - apply Forall_fmap. eapply Forall_impl; [exact Hcol|].
    intros v Hv. simpl. by destruct v.
  - by rewrite length_fmap.
Qed.
End BoundedRatings.

Section DemeanWithFacts.
Context {dt : dtype}.
Variable np_add_reduce : list float → float.

Lemma length_column_means_with (ratings : ndarray float) :
  wf_array ratings →
  length (column_means_with np_add_reduce ratings) = ncols ratings.
Proof.
  intros [_ Hrows]. unfold column_means_with. rewrite length_fmap. simpl.
  by apply length_columns_of.
Qed.

Lemma wf_demean_ratings_with (ratings : ndarray float) :
  wf_array ratings → wf_array (demean_ratings_with np_add_reduce ratings).
Proof.
  intros Hwf. pose proof (length_column_means_with _ Hwf) as Hm.
  destruct Hwf as [Hlen Hrows]. split; simpl.
  - by rewrite !length_fmap.
  - rewrite <- list_fmap_compose. apply Forall_fmap.
    eapply Forall_impl; [exact Hrows|]. intros row Hrow. simpl.
    rewrite length_fmap, length_zip_with, Hm, Hrow. lia.
Qed.

(** Entry [(i, j)] of the result is [x - mean_j], or zero when that is NaN,
    where [mean_j] is the mean of column [j], which holds [x] at [i]. *)
Lemma demean_ratings_with_lookup (ratings : ndarray float) (i j : nat)
    (orow : list float) (y : float) :
  wf_array ratings →
  cells (demean_ratings_with np_add_reduce ratings) !! i = Some orow →
  orow !! j = Some y →
  ∃ row x col,
    cells ratings !! i = Some row ∧ row !! j = Some x ∧
    cells (transpose ratings) !! j = Some col ∧
    length col = nrows ratings ∧ col !! i = Some x ∧
    (∀ v, v ∈ col → ∃ r, r ∈ cells ratings ∧ v ∈ r) ∧
    y = nan_to_zero (fsub x (nanmean_with np_add_reduce col)).
Proof.
  intros [Hlen Hrows]. simpl. rewrite !list_lookup_fmap.
  destruct (cells ratings !! i) as [row|] eqn:Hrow; simpl; [|done].
  intros [= <-]. rewrite list_lookup_fmap, lookup_zip_with.
  destruct (row !! j) as [x|] eqn:Hx; simpl; [|done].
  unfold column_means_with. rewrite list_lookup_fmap.
  destruct (cells (transpose ratings) !! j) as [col|] eqn:Hcol; simpl; [|done].
  intros [= <-]. exists row, x, col.
  assert (j < ncols ratings)%nat as Hj.
  { apply lookup_lt_Some in Hcol. simpl in Hcol.
    by rewrite length_columns_of in Hcol. }
  destruct (columns_of_lookup _ _ j Hrows Hj) as (col' & Hcol' & Hl & Hlk).
  simpl in Hcol. assert (col' = col) as -> by congruence.
  repeat split; try done.
  - by rewrite Hl.
  - by rewrite (Hlk i row Hrow).
  - intros v [i' Hv]%list_elem_of_lookup_1.
    destruct (lookup_lt_is_Some_2 (cells ratings) i') as [r Hr].
    { rewrite <- Hl. by eapply lookup_lt_Some. }
    exists r. split; [by eapply list_elem_of_lookup_2|].
    rewrite (Hlk i' r Hr) in Hv. by eapply list_elem_of_lookup_2.
Qed.

(** Summing from left to right, the cell is the demeaning cell of the
    first model. *)
Lemma demean_ratings_with_add_reduce (ratings : ndarray float) :
  demean_ratings_with add_reduce ratings = demean_ratings ratings.
Proof. reflexivity. Qed.
End DemeanWithFacts.

(** C7 (as the code behaves). For every rating matrix with fewer than
    [2^prec - 1] rows whose entries are missing (NaN) or numbers of
    magnitude at most [2^E], where [2^E] is the unit of a finite number of
    the format ([emin <= E <= emax - prec]), and however numpy adds up a
    column: after column-wise demeaning with the NaN-ignoring mean and
    replacement of NaN by zero, the matrix keeps its shape and every entry
    is a finite number, none is NaN or an infinity, of magnitude at most
    [(rows + 1) * 2^E]; this includes the columns consisting entirely of
    missing entries. *)
Theorem demean_ratings_no_nan `{dt : dtype} (np_add_reduce : list float → float)
    (ratings : ndarray float) (E : Z) :
  1 < prec → prec ≤ emax →
  (∀ l, sums_to l (np_add_reduce l)) →
  wf_array ratings →
  Z.of_nat (nrows ratings) + 1 < 2 ^ prec →
  emin prec emax ≤ E → E ≤ emax - prec →
  Forall (Forall (λ x, is_nan x || within 1 E x = true)) (cells ratings) →
  wf_array (demean_ratings_with np_add_reduce ratings) ∧
  shape (demean_ratings_with np_add_reduce ratings) = shape ratings ∧
  Forall (Forall (λ y, is_nan y = false ∧ is_finite y = true ∧
                       within (Z.of_nat (nrows ratings) + 1) E y = true))
    (cells (demean_ratings_with np_add_reduce ratings)).
Proof.
  intros Hprec Hemax Hsums Hwf Hrows HEmin HEmax Hin.
  split; [by apply wf_demean_ratings_with|]. split; [done|].
  assert (0 < prec) as Hprec0 by lia.
  apply Forall_lookup. intros i orow Hi. apply Forall_lookup. intros j y Hj.
  destruct (demean_ratings_with_lookup np_add_reduce _ _ _ _ _ Hwf Hi Hj)
    as (row & x & col & Hrow & Hx & Hcol & Hlen & Hxc & Hcolin & ->).
  assert (within (Z.of_nat (nrows ratings) + 1) E
            (nan_to_zero (fsub x (nanmean_with np_add_reduce col))) = true) as Hy.
  { destruct (is_nan x) eqn:Hxn; [by destruct x|].
    assert (within 1 E x = true) as Hxw.
    { rewrite Forall_forall in Hin.
      pose proof (Hin row ltac:(by eapply list_elem_of_lookup_2)) as Hr.
      rewrite Forall_forall in Hr.
      pose proof (Hr x ltac:(by eapply list_elem_of_lookup_2)) as Hv.
      by rewrite Hxn in Hv. }
    assert (within (Z.of_nat (nrows ratings)) E (nanmean_with np_add_reduce col) = true)
      as Hm.
    { rewrite <- Hlen. apply nanmean_with_within with (x := x); try done.
      - apply Forall_forall. intros v Hv.
        destruct (Hcolin v Hv) as (r & Hr & Hvr).
        rewrite Forall_forall in Hin. pose proof (Hin r Hr) as Hrr.
        rewrite Forall_forall in Hrr. by apply Hrr.
      - rewrite Hlen. lia.
      - by eapply list_elem_of_lookup_2. }
    pose proof (SFsub_within Hprec0 1 (Z.of_nat (nrows ratings)) E x _
                  HEmin HEmax ltac:(lia) ltac:(lia) ltac:(lia) Hxw Hm) as Hs.
    rewrite Z.add_comm. unfold fsub, nan_to_zero.
    by rewrite (within_not_nan _ _ _ Hs). }
  split; [by eapply within_not_nan|]. split; [by eapply within_finite_number|done].
Qed.

Lemma demean_ratings_no_nan_witness :
  wf_array (demean_ratings_with (dt := float32) (add_reduce (dt := float32)) small_ratings) ∧
  shape (demean_ratings_with (dt := float32) (add_reduce (dt := float32)) small_ratings)
    = shape small_ratings ∧
  Forall (Forall (λ y, is_nan y = false ∧ is_finite y = true ∧
                       within (Z.of_nat (nrows small_ratings) + 1) 2 y = true))
    (cells (demean_ratings_with (dt := float32) (add_reduce (dt := float32)) small_ratings)).
Proof.
  apply (demean_ratings_no_nan (dt := float32) (add_reduce (dt := float32))
           small_ratings 2).
  - by vm_compute.
  - by vm_compute.
  - apply add_reduce_sums_to.
  - split; [reflexivity|]. repeat constructor.
  - by vm_compute.
  - by vm_compute.
  - by vm_compute.
  - repeat constructor.
Defined.

(** However the two entries of a column holding [2^127] twice are added
    up, the float32 sum is [+inf]. *)
Lemma sums_to_huge (l : list float) (s : float) :
  sums_to (dt := float32) l s →
  Forall (λ x, x = fmake (dt := float32) 1 127) l → (length l ≤ 2)%nat →
  s = match length l with
      | 0%nat => fzero
      | 1%nat => fmake (dt := float32) 1 127
      | _ => S754_infinity false
      end.
Proof.
  induction 1 as [|x|l l1 l2 a b Hperm Ha IHa Hb IHb]; intros Hl Hlen.
  - done.
  - by apply Forall_cons in Hl as [-> _].
  - rewrite Hperm in Hl, Hlen. rewrite Hperm.
    apply Forall_app in Hl as [Hl1 Hl2]. rewrite length_app in *.
    rewrite (IHa Hl1), (IHb Hl2) by lia.
    destruct (length l1) as [|[|[|]]], (length l2) as [|[|[|]]];
      simpl in Hlen; try lia; by vm_compute.
Qed.

(** Two finite float32 ratings of [2^127] in one column: their sum
    overflows, the column mean is [+inf] and both demeaned entries are
    [-inf], in whatever order the column is added up. *)
Lemma demean_ratings_overflow :
  Forall (Forall (λ x, is_finite x = true)) (cells huge_ratings) ∧
  column_means (dt := float32) huge_ratings = [S754_infinity false] ∧
  cells (demean_ratings (dt := float32) huge_ratings)
    = [[S754_infinity true]; [S754_infinity true]] ∧
  ¬ Forall (Forall (λ x, is_finite x = true))
      (cells (demean_ratings (dt := float32) huge_ratings)) ∧
  ∀ np_add_reduce : list float → float,
    (∀ l, sums_to (dt := float32) l (np_add_reduce l)) →
    cells (demean_ratings_with (dt := float32) np_add_reduce huge_ratings)
      = [[S754_infinity true]; [S754_infinity true]].
Proof.
  split; [by repeat constructor|]. split; [by vm_compute|]. split; [by vm_compute|].
  split.
  { intros H. apply Forall_cons in H as [H _]. apply Forall_cons in H as [H _].
    vm_compute in H. done. }
  intros np_add_reduce Hsums.
  assert (np_add_reduce [fmake (dt := float32) 1 127; fmake (dt := float32) 1 127]
          = S754_infinity false) as Hs.
  { apply (sums_to_huge [fmake (dt := float32) 1 127; fmake (dt := float32) 1 127]
             _ (Hsums _)); [by repeat constructor|simpl; lia]. }
  unfold demean_ratings_with, column_means_with, nanmean_with.
  change (cells (transpose huge_ratings))
    with [[fmake (dt := float32) 1 127; fmake (dt := float32) 1 127]].
  change (cells huge_ratings)
    with [[fmake (dt := float32) 1 127]; [fmake (dt := float32) 1 127]].
  cbn [fmap list_fmap cells].
  change (nan_to_zero (fmake (dt := float32) 1 127)) with (fmake (dt := float32) 1 127).
  rewrite Hs. by vm_compute.
Qed.

(** ** Shapes of the array helpers *)

Lemma gather_Some {A} (row : list A) (p : list nat) :
  Forall (λ j, j < length row)%nat p →
  ∃ r, gather row p = Some r ∧ length r = length p ∧
       ∀ b j, p !! b = Some j → r !! b = row !! j.
Proof.
  induction 1 as [|j p Hj Hp IH].
  - exists []. split; [done|]. split; [done|]. intros b j. by rewrite lookup_nil.
  - destruct IH as (r & Hr & Hlen & Hlk).
    destruct (lookup_lt_is_Some_2 row j Hj) as [x Hx].
    exists (x :: r). split.
    + unfold gather in *. cbn. rewrite Hx. cbn. rewrite Hr. done.
    + split; [by rewrite !length_cons, Hlen|].
      intros [|b] j'; simpl.
      * intros [= <-]. done.
      * apply Hlk.
Qed.

Section ArrayFacts.
Context {A : Type}.

Lemma mapM_rows {B} (f : list A → option (list B)) (rows : list (list A)) (n : nat) :
  (∀ row, row ∈ rows → ∃ r, f row = Some r ∧ length r = n) →
  ∃ out, mapM f rows = Some out ∧ length out = length rows ∧
         Forall (λ r, length r = n) out ∧
         ∀ i row, rows !! i = Some row → ∃ r, out !! i = Some r ∧ f row = Some r.
Proof.
  induction rows as [|row rows IH]; intros Hf.
  - exists []. split; [done|]. split; [done|]. split; [constructor|].
    intros i row. by rewrite lookup_nil.
  - destruct (Hf row) as (r & Hr & Hlen); [left|].
    destruct IH as (out & Hout & Hl & Hall & Hlk).
    { intros row' Hin. apply Hf. by right. }
    exists (r :: out). split; [cbn; rewrite Hr; cbn; by rewrite Hout|].
    split; [by rewrite !length_cons, Hl|]. split; [by constructor|].
    intros [|i] row'; simpl.
    + intros [= <-]. eauto.
    + apply Hlk.
Qed.

Lemma take_columns_Some (p : list nat) (a : ndarray A) :
  wf_array a → Forall (λ j, j < ncols a)%nat p →
  ∃ X, take_columns p a = Some X ∧ wf_array X ∧
       shape X = (nrows a, length p) ∧
       ∀ i row, cells a !! i = Some row →
         ∃ xrow, cells X !! i = Some xrow ∧
                 ∀ b j, p !! b = Some j → xrow !! b = row !! j.
Proof.
  intros [Hlen Hrows] Hp. unfold take_columns.
  rewrite decide_True by done.
  destruct (mapM_rows (λ row, gather row p) (cells a) (length p))
    as (out & Hout & Hl & Hall & Hlk).
  { intros row Hin. rewrite Forall_forall in Hrows.
    destruct (gather_Some row p) as (r & Hr & Hrl & _); [|eauto].
    by rewrite (Hrows row Hin). }
  rewrite Hout. cbn. eexists. split; [done|].
  split; [split; simpl; [by rewrite Hl|done]|]. split; [done|].
  intros i row Hi. simpl. destruct (Hlk i row Hi) as (r & Hr & Hg).
  exists r. split; [done|].
  destruct (gather_Some row p) as (r' & Hr' & _ & Hlk').
  { rewrite Forall_forall in Hrows. rewrite (Hrows row); [done|].
    by eapply list_elem_of_lookup_2. }
  assert (r' = r) as -> by congruence. done.
Qed.

Lemma take_rows_Some (J : list nat) (a : ndarray A) :
  wf_array a → Forall (λ j, j < nrows a)%nat J →
  ∃ R, take_rows J a = Some R ∧ wf_array R ∧ shape R = (length J, ncols a).
Proof.
  intros [Hlen Hrows] HJ. unfold take_rows.
  destruct (gather_Some (cells a) J) as (r & Hr & Hl & Hlk); [by rewrite Hlen|].
  rewrite Hr. cbn. eexists. split; [done|]. split; [|done].
  split; simpl; [done|].
  apply Forall_lookup. intros b row Hb.
  destruct (lookup_lt_is_Some_2 J b) as [j Hj].
  { rewrite <- Hl. by eapply lookup_lt_Some. }
  rewrite (Hlk b j Hj) in Hb.
  rewrite Forall_forall in Hrows. apply Hrows. by eapply list_elem_of_lookup_2.
Qed.

Lemma np_hstack_Some (a b : ndarray A) :
  wf_array a → wf_array b → nrows a = nrows b →
  ∃ H, np_hstack a b = Some H ∧ wf_array H ∧
       shape H = (nrows a, (ncols a + ncols b)%nat) ∧
       ∀ i ra rb, cells a !! i = Some ra → cells b !! i = Some rb →
         cells H !! i = Some (ra ++ rb).
Proof.
  intros [Hla Hra] [Hlb Hrb] Heq. unfold np_hstack. rewrite decide_True by done.
  eexists. split; [done|]. split; [|split; [done|]].
  - split; simpl.
    + rewrite length_zip_with. lia.
    + apply Forall_lookup. intros i row. rewrite lookup_zip_with.
      destruct (cells a !! i) as [ra|] eqn:Ha; simpl; [|done].
      destruct (cells b !! i) as [rb|] eqn:Hb; simpl; [|done].
      intros [= <-]. rewrite length_app.
      rewrite Forall_forall in Hra, Hrb.
      rewrite (Hra ra), (Hrb rb); eauto using list_elem_of_lookup_2.
  - intros i ra rb Ha Hb. simpl. by rewrite lookup_zip_with, Ha, Hb.
Qed.

Lemma wf_first_rows (k : nat) (a : ndarray A) :
  wf_array a → wf_array (first_rows k a).
Proof.
  intros [Hlen Hrows]. split; simpl.
  - by rewrite length_take, Hlen.
  - by apply Forall_take.
Qed.

Lemma wf_first_columns (k : nat) (a : ndarray A) :
  wf_array a → wf_array (first_columns k a).
Proof.
  intros [Hlen Hrows]. split; simpl.
  - by rewrite length_fmap.
  - apply Forall_fmap. eapply Forall_impl; [exact Hrows|].
    intros row Hrow. simpl. by rewrite length_take, Hrow.
Qed.
End ArrayFacts.

(** ** [np.argsort] of a permutation is the inverse permutation *)

Lemma StronglySorted_seq (j n : nat) : StronglySorted le (seq j n).
Proof.
  revert j. induction n as [|n IH]; intros j; simpl; constructor; [apply IH|].
  apply Forall_forall. intros x Hx%elem_of_seq. lia.
Qed.

Lemma ltb_asym (a b : nat) : Nat.ltb a b = true → Nat.ltb b a = false.
Proof. rewrite Nat.ltb_lt, Nat.ltb_ge. lia. Qed.

Lemma ltb_negtrans (a b c : nat) :
  Nat.ltb a c = true → Nat.ltb a b = true ∨ Nat.ltb b c = true.
Proof. rewrite !Nat.ltb_lt. lia. Qed.

Lemma sorted_keys_of_permutation (idx : list nat) (n : nat) :
  idx ≡ₚ seq 0 n →
  (sort_keys Nat.ltb (zip idx (seq 0 (length idx)))).*1 = seq 0 n.
Proof.
  intros Hperm. apply (StronglySorted_unique le).
  - eapply StronglySorted_fmap; [|apply (sort_keys_sorted Nat.ltb ltb_asym ltb_negtrans)].
    intros x y. unfold key_le. rewrite Nat.ltb_ge. done.
  - apply StronglySorted_seq.
  - rewrite sort_keys_perm, fst_zip; [done|]. by rewrite length_seq.
Qed.

Lemma argsort_int_inverse (idx : list nat) (n b v : nat) :
  idx ≡ₚ seq 0 n → idx !! b = Some v → argsort_int idx !! v = Some b.
Proof.
  intros Hperm Hb.
  assert (v < n)%nat as Hv.
  { apply list_elem_of_lookup_2 in Hb. rewrite Hperm in Hb.
    apply elem_of_seq in Hb. lia. }
  pose proof (sorted_keys_of_permutation idx n Hperm) as Hkeys.
  assert ((sort_keys Nat.ltb (zip idx (seq 0 (length idx)))).*1 !! v = Some v) as Hk.
  { rewrite Hkeys. by rewrite lookup_seq_lt. }
  rewrite list_lookup_fmap in Hk.
  destruct (sort_keys Nat.ltb _ !! v) as [[v' i]|] eqn:Hs; simpl in Hk; [|done].
  injection Hk as ->.
  pose proof (sort_keys_lookup _ _ _ _ _ Hs) as Hi.
  assert (NoDup idx) as Hnd by (rewrite Hperm; apply NoDup_seq).
  assert (i = b) as -> by (by eapply NoDup_lookup).
  unfold argsort_int, argsort_by. by rewrite list_lookup_fmap, Hs.
Qed.

(** ** The identity and the matrix product *)

Lemma wf_np_eye (k : nat) : wf_array (np_eye k).
Proof.
  split; simpl.
  - by rewrite length_fmap, length_seq.
  - apply Forall_fmap, Forall_forall. intros i _. simpl.
    by rewrite length_fmap, length_seq.
Qed.

Lemma np_eye_row (k i : nat) :
  (i < k)%nat →
  cells (np_eye k) !! i
    = Some ((λ j, if decide (i = j) then fone (dt := float64) else fzero) <$> seq 0 k).
Proof. intros Hi. simpl. by rewrite list_lookup_fmap, lookup_seq_lt. Qed.

Lemma wf_astype_array (to : dtype) (a : ndarray float) :
  wf_array a → wf_array (astype_array to a).
Proof.
  intros [Hlen Hrows]. split; simpl.
  - by rewrite length_fmap.
  - apply Forall_fmap. eapply Forall_impl; [exact Hrows|].
    intros row Hrow. simpl. by rewrite length_fmap.
Qed.

Section ProductFacts.
Context {dt : dtype}.

Lemma np_dot_Some (a b : ndarray float) :
  wf_array a → wf_array b → ncols a = nrows b →
  ∃ c, np_dot a b = Some c ∧ wf_array c ∧ shape c = (nrows a, ncols b).
Proof.
  intros [Hla Hra] Hb Heq. unfold np_dot. rewrite decide_True by done.
  eexists. split; [done|]. split; [|done].
  split; simpl.
  - by rewrite length_fmap.
  - apply Forall_fmap, Forall_forall. intros row _. simpl.
    rewrite length_fmap. apply length_columns_of. by destruct Hb.
Qed.

Lemma mul_broadcast_Some (u : ndarray float) (s : list float) :
  wf_array u → ncols u = length s →
  ∃ us, mul_broadcast u s = Some us ∧ wf_array us ∧ shape us = shape u.
Proof.
  intros [Hlu Hru] Heq. unfold mul_broadcast. rewrite decide_True by done.
  eexists. split; [done|]. split; [|done].
  split; simpl.
  - by rewrite length_fmap.
  - apply Forall_fmap. eapply Forall_impl; [exact Hru|].
    intros row Hrow. simpl. rewrite length_zip_with, Hrow, Heq. lia.
Qed.
End ProductFacts.

(** [interp_dec] does not raise, and row [i] of [X] is row [i] of
    [hstack(eye(k), proj)] read through [argsort(idx)]. *)
Lemma interp_dec_Some
    (interp_decomp : ndarray float → nat → list nat * ndarray float)
    (A : ndarray float) (k : nat) :
  interp_decomp_contract interp_decomp →
  wf_array A → (k ≤ nrows A)%nat → (k ≤ ncols A)%nat →
  ∃ idx proj X,
    interp_decomp (astype_array float64 A) k = (idx, proj) ∧
    idx ≡ₚ seq 0 (ncols A) ∧
    interp_dec interp_decomp A k = Some (take k idx, X) ∧
    wf_array X ∧ shape X = (k, ncols A) ∧
    ∀ i, (i < k)%nat →
      ∃ prow xrow,
        cells proj !! i = Some prow ∧ cells X !! i = Some xrow ∧
        ∀ b j, argsort_int idx !! b = Some j →
          xrow !! b
          = (((λ j, if decide (i = j) then fone (dt := float64) else fzero) <$> seq 0 k)
               ++ prow) !! j.
Proof.
  intros Hc HA Hkr Hk. unfold interp_dec.
  destruct (Hc (astype_array float64 A) k (wf_astype_array _ _ HA) Hkr Hk)
    as (Hperm & Hproj & Hshape).
  destruct (interp_decomp (astype_array float64 A) k) as [idx proj].
  simpl in Hperm, Hproj, Hshape. injection Hshape as Hpr Hpc.
  assert (length idx = ncols A) as Hlen by (by rewrite Hperm, length_seq).
  destruct (np_hstack_Some (np_eye k) proj (wf_np_eye k) Hproj)
    as (H & -> & HwfH & HshapeH & HrowsH); [done|].
  injection HshapeH as HHr HHc. simpl in HHr, HHc.
  destruct (take_columns_Some (argsort_int idx) H HwfH)
    as (X & HX & HwfX & HshapeX & HrowsX).
  { apply Forall_forall. intros j Hj%elem_of_argsort_by. lia. }
  cbn. rewrite HX. cbn.
  injection HshapeX as HXr HXc. unfold argsort_int in HXc.
  rewrite length_argsort_by in HXc.
  exists idx, proj, X. split; [done|]. split; [done|]. split; [done|].
  split; [done|]. split; [unfold shape; by rewrite HXr, HXc, HHr, Hlen|].
  intros i Hi.
  destruct (lookup_lt_is_Some_2 (cells proj) i) as [prow Hprow].
  { destruct Hproj as [-> _]. lia. }
  pose proof (HrowsH i _ prow (np_eye_row k i Hi) Hprow) as HHrow.
  destruct (HrowsX i _ HHrow) as (xrow & Hxrow & Hx).
  by exists prow, xrow.
Qed.

(** C4 (as the code behaves). Given that [interp_decomp] returns a
    permutation of the column indices and a [k × (n - k)] coefficient
    matrix for every rank [k <= min(rows, cols)], [interp_dec A k] with
    [k <= rows(A)] and [k <= cols(A)] returns [k] distinct indices [J] below
    [cols(A)] and a [k × cols(A)] matrix [X] whose columns at [J] form the
    identity: [X[:, J] = np.eye(k)]. *)
Theorem interp_dec_identity_block
    (interp_decomp : ndarray float → nat → list nat * ndarray float)
    (A : ndarray float) (k : nat) :
  interp_decomp_contract interp_decomp →
  wf_array A → (k ≤ nrows A)%nat → (k ≤ ncols A)%nat →
  ∃ J X, interp_dec interp_decomp A k = Some (J, X) ∧
         length J = k ∧ NoDup J ∧ Forall (λ j, j < ncols A)%nat J ∧
         wf_array X ∧ shape X = (k, ncols A) ∧
         take_columns J X = Some (np_eye k).
Proof.
  intros Hc HA Hkr Hk.
  destruct (interp_dec_Some interp_decomp A k Hc HA Hkr Hk)
    as (idx & proj & X & _ & Hperm & -> & HwfX & HshapeX & Hrows).
  assert (length idx = ncols A) as Hlen by (by rewrite Hperm, length_seq).
  assert (length (take k idx) = k) as HJlen by (rewrite length_take; lia).
  assert (Forall (λ j, j < ncols A)%nat (take k idx)) as HJ.
  { apply Forall_take, Forall_forall. intros j Hj. rewrite Hperm in Hj.
    apply elem_of_seq in Hj. lia. }
  exists (take k idx), X. split; [done|]. split; [done|].
  split. { eapply sublist_NoDup; [|apply sublist_take]. rewrite Hperm. apply NoDup_seq. }
  split; [done|]. split; [done|]. split; [done|].
  injection HshapeX as HXr HXc.
  destruct (take_columns_Some (take k idx) X HwfX) as (E & HE & HwfE & HshapeE & HrowsE).
  { by rewrite HXc. }
  rewrite HE. f_equal.
  injection HshapeE as HEr HEc. rewrite HJlen in HEc. rewrite HXr in HEr.
  destruct HwfE as [HEl HErows]. rewrite HEr in HEl. rewrite HEc in HErows.
  destruct E as [er ec ecells]. simpl in HEr, HEc, HEl, HErows, HrowsE.
  subst er ec. unfold np_eye. f_equal.
  apply (list_eq_same_length _ _ k).
  { by rewrite length_fmap, length_seq. }
  { done. }
  intros i erow irow Hi Herow Hirow.
  rewrite list_lookup_fmap, lookup_seq_lt in Hirow by done. injection Hirow as <-.
  destruct (Hrows i Hi) as (prow & xrow & _ & Hxrow & Hx).
  destruct (HrowsE i _ Hxrow) as (erow' & Herow' & He).
  assert (erow' = erow) as -> by congruence.
  apply (list_eq_same_length _ _ k).
  { by rewrite length_fmap, length_seq. }
  { rewrite Forall_forall in HErows. apply HErows. by eapply list_elem_of_lookup_2. }
  intros b x y Hb Hx' Hy.
  destruct (lookup_lt_is_Some_2 idx b) as [v Hv]; [lia|].
  assert (take k idx !! b = Some v) as HJb by (by rewrite lookup_take_lt).
  rewrite (He b v HJb) in Hx'.
  rewrite (Hx v b (argsort_int_inverse idx _ b v Hperm Hv)) in Hx'.
  rewrite lookup_app_l in Hx' by (by rewrite length_fmap, length_seq).
  congruence.
Qed.

Lemma wf_constant_array (m n : nat) (c : float) : wf_array (constant_array m n c).
Proof.
  split; simpl; [apply length_replicate|].
  apply Forall_replicate, length_replicate.
Qed.

Lemma reversing_interp_decomp_contract :
  interp_decomp_contract reversing_interp_decomp.
Proof.
  intros A k _ _ _. simpl. split; [apply reverse_Permutation|].
  split; [apply wf_constant_array|done].
Qed.

Lemma interp_dec_identity_block_witness :
  ∃ J X, interp_dec reversing_interp_decomp (ints64 [[1; 2; 3]; [4; 5; 6]]) 2
           = Some (J, X) ∧
         length J = 2%nat ∧ NoDup J ∧ Forall (λ j, j < 3)%nat J ∧
         wf_array X ∧ shape X = (2%nat, 3%nat) ∧
         take_columns J X = Some (np_eye 2).
Proof.
  apply (interp_dec_identity_block reversing_interp_decomp
           (ints64 [[1; 2; 3]; [4; 5; 6]]) 2).
  - apply reversing_interp_decomp_contract.
  - split; [reflexivity|]. repeat constructor.
  - simpl. lia.
  - simpl. lia.
Defined.

Lemma capped_interp_decomp_contract :
  interp_decomp_contract capped_interp_decomp.
Proof.
  intros A k _ Hk _. simpl. split; [done|].
  split; [apply wf_constant_array|]. unfold shape. simpl. f_equal. lia.
Qed.

(** A rank above the number of rows: the routine returns a permutation of
    the column indices, as it does for every input, and [k = 3 <= cols(A)]
    holds, but the coefficient matrix has only [rows(A)] rows and
    [np.hstack([np.eye(k), proj])] raises [ValueError]. *)
Lemma interp_dec_rank_above_rows :
  interp_decomp_contract capped_interp_decomp ∧
  (∀ A k, (capped_interp_decomp A k).1 ≡ₚ seq 0 (ncols A)) ∧
  wf_array (ints64 [[1; 2; 3]; [4; 5; 6]]) ∧
  ncols (ints64 [[1; 2; 3]; [4; 5; 6]]) = 3%nat ∧
  interp_dec capped_interp_decomp (ints64 [[1; 2; 3]; [4; 5; 6]]) 3 = None.
Proof.
  split; [apply capped_interp_decomp_contract|]. split; [done|].
  split; [split; [reflexivity|repeat constructor]|].
  split; reflexivity.
Qed.


Lemma constant_qr_contract : qr_contract constant_qr.
Proof. intros A _. simpl. repeat split; apply wf_constant_array. Qed.

Lemma constant_svd_contract : svd_contract constant_svd.
Proof.
  intros A _. simpl.
  split; [apply wf_constant_array|]. split; [done|].
  split; [apply length_replicate|].
  split; [by apply Forall_replicate|].
  split; [|split; [apply wf_constant_array|done]].
  intros p q a b _ [-> _]%lookup_replicate [-> _]%lookup_replicate. done.
Qed.


(** ** The projector *)

Lemma wf_binarized (x : ndarray float) (thresh : float) :
  wf_array x →
  wf_array (astype_uint8 (greater_than x thresh)) ∧
  is_binary (astype_uint8 (greater_than x thresh)).
Proof.
  intros [Hlen Hrows]. split; [split|]; simpl.
  - by rewrite !length_fmap.
  - rewrite <- list_fmap_compose. apply Forall_fmap.
    eapply Forall_impl; [exact Hrows|]. intros row Hrow. simpl.
    by rewrite !length_fmap.
  - unfold is_binary. simpl. rewrite <- list_fmap_compose.
    apply Forall_fmap, Forall_forall. intros row _. simpl.
    rewrite <- list_fmap_compose. apply Forall_fmap, Forall_forall.
    intros v _. simpl. destruct (fgt v thresh); auto.
Qed.

(** C6. Given that the device maps a binary array of shape
    [(n_samples, n_features)] to [n_samples] vectors of dimension [k],
    [randomize x k] returns an array of shape [(rows(x), k)]. *)
Theorem randomize_shape {Y} (opu_transform : nat → ndarray Z → ndarray Y)
    (x : ndarray float) (k : nat) (thresh : float) :
  opu_contract opu_transform →
  wf_array x → (0 < k)%nat →
  wf_array (randomize opu_transform x k thresh) ∧
  shape (randomize opu_transform x k thresh) = (nrows x, k).
Proof.
  intros Hopu Hx Hk. unfold randomize.
  destruct (wf_binarized x thresh Hx) as [Hwf Hbin].
  exact (Hopu k _ Hk Hwf Hbin).
Qed.

Lemma counting_opu_contract : opu_contract counting_opu.
Proof.
  intros k x _ [Hlen _] _. split; [split|done]; simpl.
  - by rewrite length_fmap.
  - apply Forall_fmap, Forall_forall. intros row _. simpl. apply length_replicate.
Qed.

Lemma randomize_shape_witness :
  wf_array (randomize counting_opu (ints64 [[5; -3]; [0; 7]; [1; 1]]) 4 fzero) ∧
  shape (randomize counting_opu (ints64 [[5; -3]; [0; 7]; [1; 1]]) 4 fzero)
    = (3%nat, 4%nat).
Proof.
  apply (randomize_shape counting_opu (ints64 [[5; -3]; [0; 7]; [1; 1]]) 4 fzero).
  - apply counting_opu_contract.
  - split; [reflexivity|]. repeat constructor.
  - lia.
Defined.

(** C10. [randomize] binarizes before it projects: two arrays of the same
    shape whose entries exceed the threshold at the same places give the
    same projection, whatever the magnitudes of the entries. *)
Theorem randomize_depends_on_pattern {Y} (opu_transform : nat → ndarray Z → ndarray Y)
    (x x' : ndarray float) (k : nat) (thresh : float) :
  wf_array x → wf_array x' → shape x = shape x' →
  (∀ (i j : nat) row row' v v',
     cells x !! i = Some row → cells x' !! i = Some row' →
     row !! j = Some v → row' !! j = Some v' →
     fgt v thresh = fgt v' thresh) →
  randomize opu_transform x k thresh = randomize opu_transform x' k thresh.
Proof.
  intros [Hlen Hrows] [Hlen' Hrows'] Hshape Hsame.
  injection Hshape as Hr Hc. unfold randomize. f_equal.
  unfold astype_uint8, greater_than. simpl. rewrite Hr, Hc. f_equal.
  rewrite <- !list_fmap_compose.
  apply (list_eq_same_length _ _ (nrows x)).
  { by rewrite length_fmap, Hlen', Hr. }
  { by rewrite length_fmap. }
  intros i brow brow' _. rewrite !list_lookup_fmap.
  destruct (cells x !! i) as [row|] eqn:Hrow; simpl; [|done].
  destruct (cells x' !! i) as [row'|] eqn:Hrow'; simpl; [|done].
  intros [= <-] [= <-].
  rewrite Forall_forall in Hrows, Hrows'.
  pose proof (Hrows row (list_elem_of_lookup_2 _ _ _ Hrow)) as Hl.
  pose proof (Hrows' row' (list_elem_of_lookup_2 _ _ _ Hrow')) as Hl'.
  rewrite <- !list_fmap_compose.
  apply (list_eq_same_length _ _ (ncols x)).
  { by rewrite length_fmap, Hl', Hc. }
  { by rewrite length_fmap. }
  intros j b b' _. rewrite !list_lookup_fmap.
  destruct (row !! j) as [v|] eqn:Hv; simpl; [|done].
  destruct (row' !! j) as [v'|] eqn:Hv'; simpl; [|done].
  intros [= <-] [= <-]. f_equal. by eapply Hsame.
Qed.

Lemma randomize_depends_on_pattern_witness :
  randomize counting_opu (ints64 [[5; -3]; [0; 7]]) 3 fzero
  = randomize counting_opu (ints64 [[1; -100]; [-2; 2]]) 3 fzero.
Proof.
  apply (randomize_depends_on_pattern counting_opu
           (ints64 [[5; -3]; [0; 7]]) (ints64 [[1; -100]; [-2; 2]]) 3 fzero).
  - split; [reflexivity|]. repeat constructor.
  - split; [reflexivity|]. repeat constructor.
  - reflexivity.
  - intros i j row row' v v' Hi Hi' Hj Hj'.
    destruct i as [|[|i]]; simplify_eq/=;
      destruct j as [|[|j]]; simplify_eq/=; reflexivity.
Defined.

(** * Further properties of the notebook's code *)

(** ** More on the similarity ranker *)

Section RankerErrors.
Context {dt : dtype}.

Lemma similarity_None (data : ndarray float) (movie_id : Z) :
  ¬ (- Z.of_nat (nrows data) ≤ movie_id - 1 < Z.of_nat (nrows data)) →
  similarity data movie_id = None.
Proof.
  intros Hid. unfold similarity, py_index.
  rewrite !bool_decide_eq_false_2 by lia. done.
Qed.

Lemma similarity_shift (data : ndarray float) (movie_id : Z) :
  - Z.of_nat (nrows data) < movie_id ≤ 0 →
  similarity data movie_id = similarity data (movie_id + Z.of_nat (nrows data)).
Proof.
  intros Hid. unfold similarity, py_index.
  rewrite (bool_decide_eq_false_2 (0 ≤ movie_id - 1 < _)) by lia.
  rewrite (bool_decide_eq_true_2 (- _ ≤ movie_id - 1 < 0)) by lia.
  rewrite (bool_decide_eq_true_2 (0 ≤ movie_id + _ - 1 < _)) by lia.
  by replace (movie_id + Z.of_nat (nrows data) - 1)
    with (movie_id - 1 + Z.of_nat (nrows data)) by lia.
Qed.
End RankerErrors.

(** X1. [top_cosine_similarity] raises [IndexError] exactly when
    [movie_id - 1] is not a valid Python index of the rows, that is when it
    lies outside [-rows, rows); in particular it always raises on a matrix
    without rows. *)
Theorem top_cosine_similarity_raises `{dt : dtype}
    (data : ndarray float) (movie_id top_n : Z) :
  wf_array data →
  top_cosine_similarity data movie_id top_n = None ↔
  ¬ (- Z.of_nat (nrows data) ≤ movie_id - 1 < Z.of_nat (nrows data)).
Proof.
  intros Hwf. split.
  - intros Hnone Hid.
    destruct (similarity_valid data movie_id Hwf Hid) as [sim Hsim].
    by rewrite (top_cosine_similarity_eq _ _ _ _ Hsim) in Hnone.
  - intros Hid. unfold top_cosine_similarity.
    by rewrite similarity_None.
Qed.

Lemma top_cosine_similarity_raises_witness :
  top_cosine_similarity (dt := float64) zero_row_example 4 2 = None ↔
  ¬ (- 3 ≤ 4 - 1 < 3).
Proof.
  apply (top_cosine_similarity_raises (dt := float64) zero_row_example 4 2).
  split; [reflexivity|]. repeat constructor.
Defined.

(** X2. A query identifier in [(-rows, 0]] does not raise: Python's negative
    indexing makes it stand for the identifier [movie_id + rows], so that
    [movie_id = 0] queries the last row. *)
Theorem top_cosine_similarity_negative_id `{dt : dtype}
    (data : ndarray float) (movie_id top_n : Z) :
  - Z.of_nat (nrows data) < movie_id ≤ 0 →
  top_cosine_similarity data movie_id top_n
  = top_cosine_similarity data (movie_id + Z.of_nat (nrows data)) top_n.
Proof.
  intros Hid. unfold top_cosine_similarity. by rewrite similarity_shift.
Qed.

Lemma top_cosine_similarity_negative_id_witness :
  top_cosine_similarity (dt := float64) zero_row_example 0 2
  = top_cosine_similarity (dt := float64) zero_row_example (0 + 3) 2.
Proof.
  apply (top_cosine_similarity_negative_id (dt := float64) zero_row_example 0 2).
  by vm_compute.
Defined.

(** X3. With a count of at least the number of rows (and a valid query)
    the function returns every row identifier [1..rows] exactly once. *)
Theorem top_cosine_similarity_all_rows `{dt : dtype}
    (data : ndarray float) (movie_id top_n : Z) :
  wf_array data →
  - Z.of_nat (nrows data) ≤ movie_id - 1 < Z.of_nat (nrows data) →
  Z.of_nat (nrows data) ≤ top_n →
  ∃ l, top_cosine_similarity data movie_id top_n = Some l ∧
       l ≡ₚ seqZ 1 (Z.of_nat (nrows data)).
Proof.
  intros Hwf Hid Htop.
  destruct (similarity_valid data movie_id Hwf Hid) as [sim Hsim].
  pose proof (length_similarity _ _ _ Hsim) as Hlen.
  destruct Hwf as [Hrows _]. rewrite Hrows in Hlen.
  rewrite (top_cosine_similarity_eq _ _ _ _ Hsim). eexists. split; [done|].
  unfold py_slice_to. rewrite bool_decide_eq_false_2 by lia.
  rewrite take_ge by (rewrite length_sort_indices; lia).
  unfold sort_indices, argsort, seqZ.
  rewrite argsort_by_perm, length_fmap, Hlen, Nat2Z.id. done.
Qed.

Lemma top_cosine_similarity_all_rows_witness :
  ∃ l, top_cosine_similarity (dt := float64) zero_row_example 1 10 = Some l ∧
       l ≡ₚ seqZ 1 3.
Proof.
  apply (top_cosine_similarity_all_rows (dt := float64) zero_row_example 1 10).
  - split; [reflexivity|]. repeat constructor.
  - by vm_compute.
  - by vm_compute.
Defined.

(** X4. Asking for fewer rows returns a prefix of the longer answer: for
    [0 <= n <= n'] the list for [n] is the first [n] elements of the list
    for [n'] (and both calls raise together). *)
Theorem top_cosine_similarity_prefix `{dt : dtype}
    (data : ndarray float) (movie_id n n' : Z) :
  0 ≤ n ≤ n' →
  top_cosine_similarity data movie_id n
  = take (Z.to_nat n) <$> top_cosine_similarity data movie_id n'.
Proof.
  intros Hn. unfold top_cosine_similarity.
  destruct (similarity data movie_id) as [sim|]; simpl; [|done].
  unfold py_slice_to. rewrite !bool_decide_eq_false_2 by lia.
  rewrite take_take. f_equal. f_equal. lia.
Qed.

Lemma top_cosine_similarity_prefix_witness :
  top_cosine_similarity (dt := float64) pythagorean_example 1 1
  = take (Z.to_nat 1) <$> top_cosine_similarity (dt := float64) pythagorean_example 1 3.
Proof.
  apply (top_cosine_similarity_prefix (dt := float64) pythagorean_example 1 1 3).
  lia.
Defined.

(** X5. A negative count follows Python slicing: [top_n = -j] with
    [j <= rows] drops the [j] lowest-ranked rows, that is, it returns what
    [top_n = rows - j] returns. *)
Theorem top_cosine_similarity_negative_count `{dt : dtype}
    (data : ndarray float) (movie_id top_n : Z) :
  wf_array data →
  - Z.of_nat (nrows data) ≤ top_n < 0 →
  top_cosine_similarity data movie_id top_n
  = top_cosine_similarity data movie_id (Z.of_nat (nrows data) + top_n).
Proof.
  intros [Hrows _] Htop. unfold top_cosine_similarity.
  destruct (similarity data movie_id) as [sim|] eqn:Hsim; simpl; [|done].
  pose proof (length_similarity _ _ _ Hsim) as Hlen. rewrite Hrows in Hlen.
  unfold py_slice_to.
  rewrite bool_decide_eq_true_2 by lia. rewrite bool_decide_eq_false_2 by lia.
  by rewrite length_sort_indices, Hlen.
Qed.

Lemma top_cosine_similarity_negative_count_witness :
  top_cosine_similarity (dt := float64) pythagorean_example 1 (-1)
  = top_cosine_similarity (dt := float64) pythagorean_example 1 (3 + -1).
Proof.
  apply (top_cosine_similarity_negative_count (dt := float64) pythagorean_example 1 (-1)).
  - split; [reflexivity|]. repeat constructor.
  - by vm_compute.
Defined.

(** ** Sign changes of the columns *)

Section SignChanges.
Context {dt : dtype}.

Lemma fmul_fneg_fneg (x y : float) : fmul (fneg x) (fneg y) = fmul x y.
Proof.
  unfold fmul, fneg, SFmul, SFopp.
  destruct x as [[]|[]| |[] mx ex], y as [[]|[]| |[] my ey]; reflexivity.
Qed.

Lemma flip_row_dot (signs : list bool) (u v : list float) :
  length u = length signs → length v = length signs →
  dot (zip_with (λ (b : bool) x, if b then fneg x else x) signs u)
      (zip_with (λ (b : bool) x, if b then fneg x else x) signs v)
  = dot u v.
Proof.
  intros Hu Hv. unfold dot. f_equal. revert u v Hu Hv.
  induction signs as [|b signs IH]; intros [|x u] [|y v] Hu Hv; simpl in *; try done.
  rewrite IH by lia. f_equal. destruct b; [apply fmul_fneg_fneg|done].
Qed.
End SignChanges.

(** X7. Changing the sign of whole columns of the factor matrix changes no
    computed similarity, hence no ranking: the result does not depend on
    the sign a singular vector happens to come out with. *)
Theorem top_cosine_similarity_sign_invariant `{dt : dtype}
    (signs : list bool) (data : ndarray float) (movie_id top_n : Z) :
  wf_array data → length signs = ncols data →
  similarity (flip_columns signs data) movie_id = similarity data movie_id ∧
  top_cosine_similarity (flip_columns signs data) movie_id top_n
  = top_cosine_similarity data movie_id top_n.
Proof.
  intros [Hlen Hrows] Hsigns.
  assert (similarity (flip_columns signs data) movie_id = similarity data movie_id)
    as Hsim; [|split; [done|]; unfold top_cosine_similarity; by rewrite Hsim].
  unfold similarity. simpl.
  destruct (py_index (nrows data) (movie_id - 1)) as [i|]; simpl; [|done].
  rewrite list_lookup_fmap.
  destruct (cells data !! i) as [mr|] eqn:Hmr; simpl; [|done].
  assert (length mr = length signs) as Hmrl.
  { rewrite Forall_forall in Hrows. rewrite Hsigns. apply Hrows.
    by eapply list_elem_of_lookup_2. }
  assert (magnitudes (flip_columns signs data) = magnitudes data) as ->.
  { unfold magnitudes. simpl. rewrite <- list_fmap_compose.
    apply Forall_fmap_ext_1. eapply Forall_impl; [exact Hrows|].
    intros row Hrow. simpl. rewrite <- !dot_self.
    by rewrite flip_row_dot by congruence. }
  destruct (magnitudes data !! i) as [mi|]; simpl; [|done].
  f_equal. f_equal. rewrite <- list_fmap_compose.
  apply Forall_fmap_ext_1. eapply Forall_impl; [exact Hrows|].
  intros row Hrow. simpl. by rewrite flip_row_dot by congruence.
Qed.

Lemma top_cosine_similarity_sign_invariant_witness :
  similarity (dt := float64) (flip_columns [true; false] rounding_example) 2
  = similarity (dt := float64) rounding_example 2 ∧
  top_cosine_similarity (dt := float64) (flip_columns [true; false] rounding_example) 2 1
  = top_cosine_similarity (dt := float64) rounding_example 2 1.
Proof.
  apply (top_cosine_similarity_sign_invariant (dt := float64)
           [true; false] rounding_example 2 1).
  - split; [reflexivity|]. repeat constructor.
  - reflexivity.
Defined.

(** ** More on [interp_dec] *)



(** ** More on [svd] and the cells that call it *)

(** The shapes [svd] returns depend on [x] and [k] only: the projection may
    have any number of columns from [k] on. *)
Lemma svd_Some `{dt : dtype}
    (interp_decomp : ndarray float → nat → list nat * ndarray float)
    (linalg_qr : ndarray float → ndarray float * ndarray float)
    (linalg_svd : ndarray float → ndarray float * list float * ndarray float)
    (x_proj x : ndarray float) (k : nat) :
  interp_decomp_contract interp_decomp →
  qr_contract linalg_qr →
  svd_contract linalg_svd →
  wf_array x → wf_array x_proj →
  nrows x_proj = nrows x →
  (k ≤ ncols x_proj)%nat → (k ≤ nrows x)%nat → (k ≤ ncols x)%nat →
  ∃ U s V,
    svd interp_decomp linalg_qr linalg_svd x_proj x k = Some (U, s, V) ∧
    wf_array U ∧ shape U = (nrows x, k) ∧
    length s = k ∧
    wf_array V ∧ shape V = (k, ncols x).
Proof.
  intros Hid Hqr Hsvd Hx Hxp Hrows Hkp Hkm Hkn. unfold svd.
  destruct (np_dot_Some (transpose x) x_proj (wf_transpose _ Hx) Hxp)
    as (xtp & -> & Hwf1 & Hs1); [simpl; congruence|].
  injection Hs1 as H1r H1c. simpl in H1r. cbn.
  destruct (np_dot_Some x xtp Hx Hwf1) as (xp' & -> & Hwf2 & Hs2); [congruence|].
  injection Hs2 as H2r H2c. cbn.
  destruct (interp_dec_Some interp_decomp (transpose xp') k Hid
              (wf_transpose _ Hwf2))
    as (idx & proj & X & _ & Hperm & -> & HwfX & HsX & _); [simpl; lia..|].
  injection HsX as HXr HXc. simpl in HXc, Hperm. cbn.
  assert (length (take k idx) = k) as HJlen.
  { rewrite length_take, Hperm, length_seq. lia. }
  destruct (take_rows_Some (take k idx) x Hx) as (xJ & -> & HwfJ & HsJ).
  { apply Forall_take, Forall_forall. intros j Hj. rewrite Hperm in Hj.
    apply elem_of_seq in Hj. lia. }
  injection HsJ as HJr HJc. cbn.
  destruct (Hqr xJ HwfJ) as (HwfQ & HsQ & HwfR & HsR).
  destruct (linalg_qr xJ) as [Q1 R1]. simpl in HwfQ, HsQ, HwfR, HsR.
  injection HsQ as HQr HQc. injection HsR as HRr HRc.
  destruct (np_dot_Some (transpose X) Q1 (wf_transpose _ HwfX) HwfQ)
    as (XtQ & -> & HwfXtQ & HsXtQ); [simpl; lia|].
  injection HsXtQ as HXQr HXQc. simpl in HXQr. cbn.
  destruct (Hsvd XtQ HwfXtQ) as (HwfU & HsU & Hslen & _ & _ & HwfVt & HsVt).
  destruct (linalg_svd XtQ) as [[U s] Vt]. simpl in HwfU, HsU, Hslen, HwfVt, HsVt.
  injection HsU as HUr HUc. injection HsVt as HVr HVc.
  destruct (np_dot_Some (first_rows k Vt) R1 (wf_first_rows _ _ HwfVt) HwfR)
    as (V & -> & HwfV & HsV); [simpl; lia|].
  injection HsV as HVr' HVc'. simpl in HVr'. cbn.
  exists (first_columns k U), s, V.
  split; [done|]. split; [by apply wf_first_columns|].
  split; [unfold shape; simpl; f_equal; lia|].
  split; [lia|]. split; [done|].
  unfold shape; f_equal; lia.
Qed.






Lemma counting_opu_float_contract : opu_contract counting_opu_float.
Proof.
  intros k x _ [Hlen _] _. split; [split|done]; simpl.
  - by rewrite length_fmap.
  - apply Forall_fmap, Forall_forall. intros row _. simpl. apply length_replicate.
Qed.


(** ** More on the projector and the demeaning cell *)

Lemma device_input_lookup (x : ndarray float) (thresh : float) (i j : nat)
    (brow : list Z) (b : Z) :
  cells (device_input x thresh) !! i = Some brow → brow !! j = Some b →
  ∃ row v, cells x !! i = Some row ∧ row !! j = Some v ∧
           b = Z.b2z (fgt v thresh).
Proof.
  unfold device_input. simpl. rewrite <- list_fmap_compose, list_lookup_fmap.
  destruct (cells x !! i) as [row|] eqn:Hrow; simpl; [|done].
  intros [= <-]. rewrite <- list_fmap_compose, list_lookup_fmap.
  destruct (row !! j) as [v|] eqn:Hv; simpl; [|done].
  intros [= <-]. by exists row, v.
Qed.

Lemma fgt_le_trans (v t t' : float) :
  fle t t' = true → fgt v t' = true → fgt v t = true.
Proof.
  unfold fle, fgt, SFleb, SFltb.
  float_cases v; float_cases t; float_cases t'; simpl; try done;
    cmp_cases; simpl; try done; subst; lia.
Qed.

(** X13. Raising the threshold only switches bits off: for
    [thresh <= thresh'], every entry of the array handed to the device at
    [thresh'] is at most the entry at [thresh]; [randomize] itself is the
    device applied to that array. *)
Theorem randomize_threshold_monotone {Y} (opu_transform : nat → ndarray Z → ndarray Y)
    (x : ndarray float) (k : nat) (thresh thresh' : float) :
  fle thresh thresh' = true →
  randomize opu_transform x k thresh = opu_transform k (device_input x thresh) ∧
  ∀ (i j : nat) brow brow' b b',
    cells (device_input x thresh) !! i = Some brow → brow !! j = Some b →
    cells (device_input x thresh') !! i = Some brow' → brow' !! j = Some b' →
    b' ≤ b.
Proof.
  intros Hle. split; [done|].
  intros i j brow brow' b b' Hrow Hb Hrow' Hb'.
  destruct (device_input_lookup _ _ _ _ _ _ Hrow Hb) as (row & v & Hr & Hv & ->).
  destruct (device_input_lookup _ _ _ _ _ _ Hrow' Hb') as (row' & v' & Hr' & Hv' & ->).
  assert (row' = row) as -> by congruence. assert (v' = v) as -> by congruence.
  destruct (fgt v thresh') eqn:Hgt; simpl.
  - by rewrite (fgt_le_trans v thresh thresh' Hle Hgt).
  - by destruct (fgt v thresh).
Qed.

Lemma randomize_threshold_monotone_witness :
  randomize counting_opu (ints64 [[5; -3]; [0; 7]]) 3 fzero
  = counting_opu 3 (device_input (ints64 [[5; -3]; [0; 7]]) fzero) ∧
  ∀ (i j : nat) brow brow' b b',
    cells (device_input (ints64 [[5; -3]; [0; 7]]) fzero) !! i = Some brow →
    brow !! j = Some b →
    cells (device_input (ints64 [[5; -3]; [0; 7]]) (of_Z (dt := float64) 6)) !! i
      = Some brow' →
    brow' !! j = Some b' →
    b' ≤ b.
Proof.
  apply (randomize_threshold_monotone counting_opu (ints64 [[5; -3]; [0; 7]]) 3
           fzero (of_Z (dt := float64) 6)).
  reflexivity.
Defined.

Section DemeanEntries.
Context {dt : dtype}.

Lemma demean_ratings_entry (ratings : ndarray float) (i j : nat)
    (row : list float) (x : float) :
  wf_array ratings →
  cells ratings !! i = Some row → row !! j = Some x →
  ∃ m orow, column_means ratings !! j = Some m ∧
            cells (demean_ratings ratings) !! i = Some orow ∧
            orow !! j = Some (nan_to_zero (fsub x m)).
Proof.
  intros Hwf Hrow Hx.
  pose proof (length_column_means ratings Hwf) as Hm.
  destruct Hwf as [_ Hrows].
  assert (length row = ncols ratings) as Hl.
  { rewrite Forall_forall in Hrows. apply Hrows. by eapply list_elem_of_lookup_2. }
  destruct (lookup_lt_is_Some_2 (column_means ratings) j) as [m Hmj].
  { rewrite Hm, <- Hl. by eapply lookup_lt_Some. }
  exists m. eexists. split; [done|]. simpl.
  rewrite !list_lookup_fmap, Hrow. simpl. split; [done|].
  by rewrite list_lookup_fmap, lookup_zip_with, Hx, Hmj.
Qed.

Lemma fsub_nan_l (m : float) : fsub S754_nan m = S754_nan.
Proof. done. Qed.
End DemeanEntries.

(** X14. The demeaning cell turns every missing rating (NaN) into [+0.0] at
    the same place, whatever the rest of its column holds. *)
Theorem demean_ratings_missing `{dt : dtype}
    (ratings : ndarray float) (i j : nat) (row : list float) :
  wf_array ratings →
  cells ratings !! i = Some row → row !! j = Some S754_nan →
  ∃ orow, cells (demean_ratings ratings) !! i = Some orow ∧
          orow !! j = Some fzero.
Proof.
  intros Hwf Hrow Hx.
  destruct (demean_ratings_entry ratings i j row _ Hwf Hrow Hx)
    as (m & orow & _ & Horow & Hy).
  exists orow. split; [done|]. by rewrite Hy, fsub_nan_l.
Qed.

Lemma demean_ratings_missing_witness :
  ∃ orow, cells (demean_ratings (dt := float32) small_ratings) !! 1%nat = Some orow ∧
          orow !! 0%nat = Some fzero.
Proof.
  apply (demean_ratings_missing (dt := float32) small_ratings 1 0
           [S754_nan; S754_nan]).
  - split; [reflexivity|]. repeat constructor.
  - reflexivity.
  - reflexivity.
Defined.

(** X15. Demeaning and projecting compose so that a missing rating is never
    a one: at the default threshold 0, the entry handed to the device for a
    rating that was NaN is 0. *)
Theorem missing_rating_projects_to_zero `{dt : dtype}
    (ratings : ndarray float) (i j : nat) (row : list float) :
  wf_array ratings →
  cells ratings !! i = Some row → row !! j = Some S754_nan →
  ∃ brow, cells (device_input (demean_ratings ratings) fzero) !! i = Some brow ∧
          brow !! j = Some 0.
Proof.
  intros Hwf Hrow Hx.
  destruct (demean_ratings_entry ratings i j row _ Hwf Hrow Hx)
    as (m & orow & _ & Horow & Hy).
  rewrite fsub_nan_l in Hy.
  unfold device_input. cbn [astype_uint8 greater_than cells].
  rewrite <- list_fmap_compose, list_lookup_fmap, Horow. simpl.
  eexists. split; [done|].
  by rewrite <- list_fmap_compose, list_lookup_fmap, Hy.
Qed.

Lemma missing_rating_projects_to_zero_witness :
  ∃ brow, cells (device_input (demean_ratings (dt := float32) small_ratings) fzero)
            !! 0%nat = Some brow ∧
          brow !! 1%nat = Some 0.
Proof.
  apply (missing_rating_projects_to_zero (dt := float32) small_ratings 0 1
           [of_Z (dt := float32) 4; S754_nan]).
  - split; [reflexivity|]. repeat constructor.
  - reflexivity.
  - reflexivity.
Defined.

(** ** The energy cell *)

Section EnergyFacts.
Variable np_sum : list float → float.

Lemma running_energy_snoc (pre : list float) (el : float) (rest : list float) :
  running_energy (pre ++ el :: rest) (length pre)
  = fadd (dt := float64) (foldl (fadd (dt := float64)) fzero pre) el.
Proof.
  unfold running_energy.
  replace (S (length pre)) with (length (pre ++ [el])) by (rewrite length_app; simpl; lia).
  rewrite (assoc_L (++) pre [el] rest : pre ++ el :: rest = (pre ++ [el]) ++ rest).
  by rewrite take_app_length, foldl_app.
Qed.

Lemma energy_loop_spec (s pre : list float) (el : float) (rest : list float) :
  s = pre ++ el :: rest →
  let r := energy_loop np_sum s (foldl (fadd (dt := float64)) fzero pre)
             (length pre) el rest in
  (length pre ≤ r ≤ length pre + length rest)%nat ∧
  (∀ j, (length pre ≤ j < r)%nat →
     fgt (running_energy s j) (energy_threshold np_sum s) = false) ∧
  (fgt (running_energy s r) (energy_threshold np_sum s) = true ∨
   r = (length pre + length rest)%nat).
Proof.
  revert pre el. induction rest as [|el' rest IH]; intros pre el Hs; simpl.
  - rewrite <- (running_energy_snoc pre el []), <- Hs.
    destruct (fgt (running_energy s (length pre)) _) eqn:Hgt.
    + split; [lia|]. split; [intros j; lia|]. by left.
    + split; [lia|]. split; [intros j; lia|]. right. lia.
  - rewrite <- (running_energy_snoc pre el (el' :: rest)), <- Hs.
    destruct (fgt (running_energy s (length pre)) _) eqn:Hgt.
    + split; [lia|]. split; [intros j; lia|]. by left.
    + specialize (IH (pre ++ [el]) el').
      rewrite <- (assoc_L (++)) in IH. specialize (IH Hs).
      rewrite foldl_app, length_app in IH. simpl in IH.
      rewrite <- (running_energy_snoc pre el (el' :: rest)), <- Hs in IH.
      replace (length pre + 1)%nat with (S (length pre)) in IH by lia.
      destruct IH as (Hr & Hbefore & Hat).
      split; [lia|]. split.
      * intros j Hj. destruct (decide (j = length pre)) as [->|]; [done|].
        apply Hbefore. lia.
      * destruct Hat as [Hat|Hat]; [by left|right; lia].
Qed.
End EnergyFacts.

(** X16. On a non-empty vector of singular values the energy cell sets [k]
    to a position of the vector, [0 <= k < len(s)], so that [u[:, :k]]
    always leaves out at least the last column; on an empty vector the cell
    raises [NameError]. *)
Theorem energy_rank_below_length (np_sum : list float → float) (s : list float) :
  (energy_rank np_sum s = None ↔ s = []) ∧
  ∀ k, energy_rank np_sum s = Some k → (k < length s)%nat.
Proof.
  split.
  - by destruct s.
  - intros k Hk. destruct s as [|el rest]; [done|].
    injection Hk as <-.
    destruct (energy_loop_spec np_sum (el :: rest) [] el rest eq_refl) as (Hr & _).
    simpl in *. lia.
Qed.

Lemma energy_rank_below_length_witness :
  (energy_rank sum_left_to_right [of_Z (dt := float64) 3; of_Z (dt := float64) 2] = None
   ↔ [of_Z (dt := float64) 3; of_Z (dt := float64) 2] = []) ∧
  (1 < 2)%nat.
Proof.
  destruct (energy_rank_below_length sum_left_to_right
              [of_Z (dt := float64) 3; of_Z (dt := float64) 2]) as [Hnone Hlt].
  split; [exact Hnone|]. apply Hlt. by vm_compute.
Defined.

(** X17. The [k] the energy cell computes is the first position at which
    the running sum of the singular values exceeds 0.9 times the sum of
    their squares, and the last position when the running sum never does:
    the columns [u[:, :k]] are those before the crossing. *)
Theorem energy_rank_first_crossing (np_sum : list float → float)
    (s : list float) (k : nat) :
  energy_rank np_sum s = Some k →
  (∀ j, (j < k)%nat →
     fgt (running_energy s j) (energy_threshold np_sum s) = false) ∧
  (fgt (running_energy s k) (energy_threshold np_sum s) = true ∨
   k = (length s - 1)%nat).
Proof.
  intros Hk. destruct s as [|el rest]; [done|]. injection Hk as <-.
  destruct (energy_loop_spec np_sum (el :: rest) [] el rest eq_refl)
    as (Hr & Hbefore & Hat).
  simpl in Hr, Hbefore, Hat. split.
  - intros j Hj. apply Hbefore. lia.
  - destruct Hat as [Hat|Hat]; [by left|right]. simpl. lia.
Qed.

Lemma energy_rank_first_crossing_witness :
  (∀ j, (j < 1)%nat →
     fgt (running_energy [of_Z (dt := float64) 3; of_Z (dt := float64) 2] j)
         (energy_threshold sum_left_to_right
            [of_Z (dt := float64) 3; of_Z (dt := float64) 2]) = false) ∧
  (fgt (running_energy [of_Z (dt := float64) 3; of_Z (dt := float64) 2] 1)
       (energy_threshold sum_left_to_right
          [of_Z (dt := float64) 3; of_Z (dt := float64) 2]) = true ∨
   1%nat = (length [of_Z (dt := float64) 3; of_Z (dt := float64) 2] - 1)%nat).
Proof.
  apply (energy_rank_first_crossing sum_left_to_right
           [of_Z (dt := float64) 3; of_Z (dt := float64) 2] 1).
  by vm_compute.
Defined.

(** ** The query cell *)

Lemma loc_Some {A} (df : list A) (label : Z) :
  0 ≤ label < Z.of_nat (length df) →
  ∃ r, loc df label = Some r ∧ df !! Z.to_nat label = Some r.
Proof.
  intros Hl. unfold loc. rewrite bool_decide_eq_true_2 by done.
  destruct (lookup_lt_is_Some_2 df (Z.to_nat label)) as [r Hr]; [lia|]. eauto.
Qed.

(** The row whose similarity is strictly above all others heads the
    ranking. *)
Lemma sort_indices_strict_max (sim : list float) (id : Z) :
  1 ≤ id ≤ Z.of_nat (length sim) →
  (∀ id', 1 ≤ id' ≤ Z.of_nat (length sim) → id' ≠ id →
     SFltb (row_similarity sim id') (row_similarity sim id) = true) →
  ∃ rest, sort_indices sim = id :: rest ∧ id ∉ rest.
Proof.
  intros Hid Hmax.
  assert (id ∈ sort_indices sim) as Hin by (by apply elem_of_sort_indices).
  apply list_elem_of_lookup_1 in Hin as [q Hq].
  pose proof (NoDup_sort_indices sim) as Hnd.
  destruct (sort_indices sim) as [|id0 t] eqn:Hids; [by rewrite lookup_nil in Hq|].
  assert (id0 = id) as ->.
  { destruct q as [|q]; [simpl in Hq; congruence|].
    destruct (decide (id0 = id)) as [|Hne]; [done|]. exfalso.
    assert (1 ≤ id0 ≤ Z.of_nat (length sim)) as Hid0.
    { apply elem_of_sort_indices. rewrite Hids. left. }
    pose proof (sort_indices_ordered sim 0 (S q) id0 id) as Hord.
    rewrite Hids in Hord. specialize (Hord ltac:(lia) eq_refl Hq).
    rewrite (np_lt_fneg_lt _ _ (Hmax id0 Hid0 Hne)) in Hord. done. }
  exists t. split; [done|]. by apply NoDup_cons in Hnd as [? _].
Qed.

(** X18. The query cell raises no [KeyError]: when the data frame has a row
    for every row of [u], the query identifier is in [1..rows] and
    [top_n >= 1], the cell prints the query line and
    [min(top_n, rows) - 1] recommended lines, each the data-frame row
    [idx - 1] of a returned identifier [idx] other than the first. *)
Theorem query_cell_prints {A} `{dt : dtype} (df_m : list A) (u : ndarray float)
    (k : nat) (movie_id top_n : Z) :
  wf_array u →
  1 ≤ movie_id ≤ Z.of_nat (nrows u) →
  1 ≤ top_n →
  (nrows u ≤ length df_m)%nat →
  ∃ indices query recommended,
    top_cosine_similarity (first_columns k u) movie_id top_n = Some indices ∧
    query_cell df_m u k movie_id top_n = Some (query, recommended) ∧
    df_m !! 0%nat = Some query ∧
    length recommended = (Z.to_nat top_n `min` nrows u - 1)%nat ∧
    Forall2 (λ idx r, df_m !! Z.to_nat (idx - 1) = Some r)
      (drop 1 indices) recommended.
Proof.
  intros Hwf Hid Htop Hdf. unfold query_cell.
  pose proof (wf_first_columns k u Hwf) as Hwfs.
  destruct (similarity_valid (first_columns k u) movie_id Hwfs) as [sim Hsim];
    [simpl; lia|].
  pose proof (length_similarity _ _ _ Hsim) as Hlen.
  destruct Hwfs as [Hrows _]. rewrite Hrows in Hlen. simpl in Hlen.
  rewrite (top_cosine_similarity_eq _ _ _ _ Hsim). cbn.
  set (indices := py_slice_to (sort_indices sim) top_n).
  assert (∀ idx, idx ∈ indices → 1 ≤ idx ≤ Z.of_nat (nrows u)) as Hrange.
  { intros idx Hin%elem_of_top_n. by rewrite Hlen in Hin. }
  destruct (loc_Some df_m 0) as (query & -> & Hq); [lia|]. cbn.
  destruct (mapM_is_Some_2 (λ idx, loc df_m (idx - 1)) (drop 1 indices))
    as [recommended Hrec].
  { apply Forall_forall. intros idx Hin. simpl.
    assert (idx ∈ indices) as Hin'.
    { apply list_elem_of_lookup_1 in Hin as [p Hp]. rewrite lookup_drop in Hp.
      by eapply list_elem_of_lookup_2. }
    destruct (loc_Some df_m (idx - 1)) as (r & -> & _); [|done].
    specialize (Hrange idx Hin'). lia. }
  rewrite Hrec. cbn.
  exists indices, query, recommended. split; [done|]. split; [done|].
  split; [done|]. split.
  - rewrite <- (length_mapM _ _ _ Hrec), length_drop. subst indices.
    destruct (top_n_prefix sim top_n) as (n & -> & Hn).
    rewrite length_take, length_sort_indices, Hn, Hlen by lia. lia.
  - apply mapM_Some_1 in Hrec.
    eapply Forall2_impl; [exact Hrec|]. intros idx r. simpl.
    unfold loc. case_bool_decide; [done|]. done.
Qed.

Lemma query_cell_prints_witness :
  ∃ indices query recommended,
    top_cosine_similarity (dt := float64) (first_columns 2 pythagorean_example) 1 2
      = Some indices ∧
    query_cell (dt := float64) [10%nat; 20%nat; 30%nat] pythagorean_example 2 1 2
      = Some (query, recommended) ∧
    [10%nat; 20%nat; 30%nat] !! 0%nat = Some query ∧
    length recommended = (Z.to_nat 2 `min` 3 - 1)%nat ∧
    Forall2 (λ idx r, [10%nat; 20%nat; 30%nat] !! Z.to_nat (idx - 1) = Some r)
      (drop 1 indices) recommended.
Proof.
  apply (query_cell_prints (dt := float64) [10%nat; 20%nat; 30%nat]
           pythagorean_example 2 1 2).
  - split; [reflexivity|]. repeat constructor.
  - by vm_compute.
  - lia.
  - simpl. lia.
Defined.

(** X19. When the computed similarity of the query row in [u[:, :k]] is
    strictly above that of every other row, the query cell does not
    recommend the query itself: the identifier it skips with [indices[1:]]
    is [movie_id], and no recommended line comes from it. *)
Theorem query_cell_skips_query {A} `{dt : dtype} (df_m : list A) (u : ndarray float)
    (k : nat) (movie_id top_n : Z) (sim : list float) :
  wf_array u →
  1 ≤ movie_id ≤ Z.of_nat (nrows u) →
  1 ≤ top_n →
  similarity (first_columns k u) movie_id = Some sim →
  (∀ id, 1 ≤ id ≤ Z.of_nat (nrows u) → id ≠ movie_id →
     SFltb (row_similarity sim id) (row_similarity sim movie_id) = true) →
  ∃ rest,
    top_cosine_similarity (first_columns k u) movie_id top_n = Some (movie_id :: rest) ∧
    (movie_id ∉ rest) ∧
    (query_cell df_m u k movie_id top_n
     = (query ← loc df_m 0;
        recommended ← mapM (λ idx, loc df_m (idx - 1)) rest;
        Some (query, recommended))).
Proof.
  intros Hwf Hid Htop Hsim Hmax.
  pose proof (length_similarity _ _ _ Hsim) as Hlen.
  destruct (wf_first_columns k u Hwf) as [Hrows _].
  rewrite Hrows in Hlen. simpl in Hlen.
  destruct (sort_indices_strict_max sim movie_id) as (t & Hids & Hnin).
  { by rewrite Hlen. }
  { intros id' Hid'. apply Hmax. by rewrite <- Hlen. }
  unfold query_cell. rewrite (top_cosine_similarity_eq _ _ _ _ Hsim). cbn.
  unfold py_slice_to. rewrite bool_decide_eq_false_2 by lia.
  rewrite Hids. destruct (Z.to_nat top_n) as [|n] eqn:Hn; [lia|]. simpl.
  exists (take n t). split; [done|]. split; [|done].
  intros (p & Hp & _)%elem_of_take. apply Hnin. by eapply list_elem_of_lookup_2.
Qed.

Lemma query_cell_skips_query_witness :
  ∃ rest,
    top_cosine_similarity (dt := float64) (first_columns 2 pythagorean_example) 1 2
      = Some (1 :: rest) ∧
    (1 ∉ rest) ∧
    (query_cell (dt := float64) [10%nat; 20%nat; 30%nat] pythagorean_example 2 1 2
     = (query ← loc [10%nat; 20%nat; 30%nat] 0;
        recommended ← mapM (λ idx, loc [10%nat; 20%nat; 30%nat] (idx - 1)) rest;
        Some (query, recommended))).
Proof.
  apply (query_cell_skips_query (dt := float64) [10%nat; 20%nat; 30%nat]
           pythagorean_example 2 1 2
           (default [] (similarity (dt := float64)
                          (first_columns 2 pythagorean_example) 1))).
  - split; [reflexivity|]. repeat constructor.
  - by vm_compute.
  - lia.
  - by vm_compute.
  - intros id Hid Hne. change (Z.of_nat (nrows pythagorean_example)) with 3 in Hid.
    assert (id = 2 ∨ id = 3) as [-> | ->] by lia; by vm_compute.
Defined.

(** ** The demeaning cell works in place *)

Lemma masked_zero (row : list float) :
  zip_with (λ (b : bool) x, if b then fzero else x) (is_nan <$> row) row
  = nan_to_zero <$> row.
Proof.
  induction row as [|x row IH]; [done|].
  rewrite !fmap_cons. cbn [zip_with]. by rewrite IH.
Qed.

Lemma masked_zero_rows (rows : list (list float)) :
  zip_with (zip_with (λ (b : bool) x, if b then fzero else x))
    ((λ row : list float, is_nan <$> row) <$> rows) rows
  = (λ row : list float, nan_to_zero <$> row) <$> rows.
Proof.
  induction rows as [|row rows IH]; [done|].
  rewrite !fmap_cons. cbn [zip_with]. by rewrite IH, masked_zero.
Qed.


